(** * dp-cache: the refresh engine of [cache.go]

    A shallow embedding of [Cache] (cache.go) and of the operations
    [NewCache], [Get], [Set], [Close], [AddUpdateFunc], [UpdateContent],
    [StartUpdates] and [StartAndManageUpdates], followed by the properties
    of the engine.

    Modelling choices, all taken from the Go source:

    - [sync.Map] and the [UpdateFuncs] map are finite maps with string keys.
      No operation of [Cache] deletes from [data].
    - [interface{}] values are a tagged union of the dynamic types that the
      repository stores ([Value]); an [error] is [option string]: [None] is
      [nil], [Some msg] an error whose [Error()] text is [msg].
    - An update function is a closure of the host.  It may read the cache
      (the test closures call [Get]) and read and change the host's own
      state [Env]; it does not write to the cache.  It returns the Go pair
      [(interface{}, error)].
    - [for ... range] over a Go map visits the entries in an unspecified
      order: every loop takes a [RangeOrder], any permutation of the
      entries.
    - Channels carry their buffer and the number of goroutines parked on a
      receive.  A send that cannot proceed parks the caller: the operation
      yields [Blocked] instead of [Returned].
    - The goroutine started by [StartUpdates] sits in its [select]; it is a
      receiver parked on [close].  Its three [select] cases are the steps
      [ticker_fires], the rendezvous inside [Close] and [ctx_done].  Each
      call and each step is atomic; one context and one error channel serve
      all calls.
    - [trace] is a history of the calls, stores, sends and [go] statements
      executed so far.  No operation reads it.
    - Calls of [log.Error] are left out. *)

From stdpp Require Import gmap strings list fin_maps.
From Stdlib Require Import ZArith.

(** ** Values, channels, configuration *)

(** The dynamic types found behind [interface{}] in this repository. *)
Inductive Value : Type :=
  | VNil
  | VString (s : string)
  | VInt (n : Z)
  | VBool (b : bool)
  | VFloat (bits : Z).

#[global] Instance Value_eq_dec : EqDecision Value.
Proof. solve_decision. Defined.

(** A Go channel: capacity, buffered elements, and the number of goroutines
    parked on a receive ([recvq]). *)
Record Chan (A : Type) : Type := mkChan {
  cap : nat;
  buf : list A;
  recvq : nat
}.
Arguments mkChan {A} _ _ _.
Arguments cap {A} _.
Arguments buf {A} _.
Arguments recvq {A} _.

(** [make(chan A, n)] *)
Definition make_chan {A : Type} (n : nat) : Chan A := mkChan n [] 0.

(** [ch <- x]: handed to a parked receiver when there is one, else buffered
    when the buffer has room, else the sender must wait ([None]). *)
Definition chan_send {A : Type} (x : A) (ch : Chan A) : option (Chan A) :=
  if 0 <? recvq ch then Some (mkChan (cap ch) (buf ch) (recvq ch - 1))
  else if length (buf ch) <? cap ch then Some (mkChan (cap ch) (buf ch ++ [x]) (recvq ch))
  else None.

(** A goroutine starts to wait on a receive from [ch]. *)
Definition chan_park {A : Type} (ch : Chan A) : Chan A :=
  mkChan (cap ch) (buf ch) (S (recvq ch)).

(** A parked goroutine stops waiting on [ch] without receiving. *)
Definition chan_unpark {A : Type} (ch : Chan A) : Chan A :=
  mkChan (cap ch) (buf ch) (recvq ch - 1).

(** Every parked goroutine stops waiting on [ch]. *)
Definition chan_unpark_all {A : Type} (ch : Chan A) : Chan A :=
  mkChan (cap ch) (buf ch) 0.

(** [type Config struct { UpdateInterval *time.Duration }]; a
    [time.Duration] is a count of nanoseconds. *)
Record Config : Type := mkConfig {
  UpdateInterval : option Z
}.

(** What the engine did, in order. *)
Inductive Event : Type :=
  | EvCall (key : string) (result : Value * option string)
  | EvStore (key : string) (v : Value)
  | EvSendError (e : string)
  | EvSendClose
  | EvGo.

(** The number of calls of the update function of [key] in a history. *)
Fixpoint calls (key : string) (tr : list Event) : nat :=
  match tr with
  | [] => 0
  | EvCall k _ :: tr' => (if decide (k = key) then 1 else 0) + calls key tr'
  | _ :: tr' => calls key tr'
  end.

(** [fmt.Errorf("failed to update search cache for %s. error: %v", key, err)] *)
Definition update_error (key err : string) : string :=
  "failed to update search cache for " +:+ key +:+ ". error: " +:+ err.

Section Engine.

(** The state of the host that update functions may consult and change. *)
Context {Env : Type}.

(** [func() (interface{}, error)], closed over the cache and the host. *)
Definition UpdateFunc : Type :=
  gmap string Value → Env → (Value * option string) * Env.

Record Cache : Type := mkCache {
  data : gmap string Value;
  config : Config;
  close : Chan unit;
  UpdateFuncs : gmap string UpdateFunc
}.

(** The cache together with what surrounds it: the host state, the
    host's error channel, and the history. *)
Record World : Type := mkWorld {
  cache : Cache;
  env : Env;
  errorChannel : Chan string;
  trace : list Event
}.

(** A call either returns, or parks its goroutine on a channel send. *)
Inductive Outcome (A : Type) : Type :=
  | Returned (a : A) (w : World)
  | Blocked (w : World).
#[global] Arguments Returned {A} _ _.
#[global] Arguments Blocked {A} _.

Definition world_of {A : Type} (o : Outcome A) : World :=
  match o with Returned _ w => w | Blocked w => w end.

Definition M (A : Type) : Type := World → Outcome A.

Definition ret {A : Type} (a : A) : M A := λ w, Returned a w.

Definition bind {A B : Type} (m : M A) (k : A → M B) : M B :=
  λ w, match m w with
       | Returned a w' => k a w'
       | Blocked w' => Blocked w'
       end.

#[global] Instance M_ret : MRet M := @ret.
#[global] Instance M_bind : MBind M := λ A B k m, bind m k.

(** *** State access *)

Definition with_cache (c : Cache) (w : World) : World :=
  mkWorld c (env w) (errorChannel w) (trace w).
Definition with_env (e : Env) (w : World) : World :=
  mkWorld (cache w) e (errorChannel w) (trace w).
Definition with_errorChannel (ch : Chan string) (w : World) : World :=
  mkWorld (cache w) (env w) ch (trace w).
Definition emit (ev : Event) (w : World) : World :=
  mkWorld (cache w) (env w) (errorChannel w) (trace w ++ [ev]).

Definition with_data (d : gmap string Value) (c : Cache) : Cache :=
  mkCache d (config c) (close c) (UpdateFuncs c).
Definition with_close (ch : Chan unit) (c : Cache) : Cache :=
  mkCache (data c) (config c) ch (UpdateFuncs c).
Definition with_UpdateFuncs (fs : gmap string UpdateFunc) (c : Cache) : Cache :=
  mkCache (data c) (config c) (close c) fs.

(** *** Iteration over a Go map *)

Record RangeOrder : Type := mkRangeOrder {
  range_of : list (string * UpdateFunc) → list (string * UpdateFunc);
  range_perm : ∀ l, range_of l ≡ₚ l
}.

Definition range (o : RangeOrder) (m : gmap string UpdateFunc)
  : list (string * UpdateFunc) :=
  range_of o (map_to_list m).

(** ** The operations of cache.go *)

Definition new_cache (cfg : Config) : Cache :=
  mkCache ∅ cfg (make_chan 0) ∅.

Definition NewCache (cfg : Config) : option Cache * option string :=
  match UpdateInterval cfg with
  | Some d =>
      if (d <=? 0)%Z
      then (None, Some "cache update interval duration is less than or equal to 0")
      else (Some (new_cache cfg), None)
  | None => (Some (new_cache cfg), None)
  end.

(** [dc.data.Load(key)] *)
Definition Get (key : string) (dc : Cache) : Value * bool :=
  match data dc !! key with
  | Some v => (v, true)
  | None => (VNil, false)
  end.

(** [dc.data.Store(key, v)] *)
Definition data_Store (key : string) (v : Value) : M unit :=
  λ w, Returned tt
         (emit (EvStore key v)
            (with_cache (with_data (<[key := v]> (data (cache w))) (cache w)) w)).

(** [Set]; the name is reserved here, hence the underscore. *)
Definition Set_ (key : string) (v : Value) : M unit := data_Store key v.

Definition AddUpdateFunc (key : string) (updateFunc : UpdateFunc) : M unit :=
  λ w, Returned tt
         (with_cache
            (with_UpdateFuncs (<[key := updateFunc]> (UpdateFuncs (cache w))) (cache w)) w).

(** [updateFunc()] *)
Definition call (key : string) (updateFunc : UpdateFunc) : M (Value * option string) :=
  λ w, let '(r, e) := updateFunc (data (cache w)) (env w) in
       Returned r (emit (EvCall key r) (with_env e w)).

(** The body of the loop of [UpdateContent], over the entries in the
    order of the iteration. *)
Fixpoint update_each (entries : list (string * UpdateFunc)) : M (option string) :=
  match entries with
  | [] => mret None
  | (key, updateFunc) :: rest =>
      r ← call key updateFunc;
      match r.2 with
      | Some err => mret (Some (update_error key err))
      | None => Set_ key r.1;; update_each rest
      end
  end.

Definition UpdateContent (o : RangeOrder) : M (option string) :=
  λ w, update_each (range o (UpdateFuncs (cache w))) w.

(** [dc.close <- struct{}{}] *)
Definition send_close : M unit :=
  λ w, match chan_send tt (close (cache w)) with
       | Some ch => Returned tt (emit EvSendClose (with_cache (with_close ch (cache w)) w))
       | None => Blocked w
       end.

(** [errorChannel <- err] *)
Definition send_error (err : string) : M unit :=
  λ w, match chan_send err (errorChannel w) with
       | Some ch => Returned tt (emit (EvSendError err) (with_errorChannel ch w))
       | None => Blocked w
       end.

(** [for key := range dc.UpdateFuncs] storing the empty string under [key] *)
Fixpoint reset_each (entries : list (string * UpdateFunc)) : M unit :=
  match entries with
  | [] => mret tt
  | (key, _) :: rest => data_Store key (VString EmptyString);; reset_each rest
  end.

Definition reset_UpdateFuncs (o : RangeOrder) : M unit :=
  λ w, reset_each (range o (UpdateFuncs (cache w))) w.

Definition clear_UpdateFuncs : M unit :=
  λ w, Returned tt (with_cache (with_UpdateFuncs ∅ (cache w)) w).

Definition Close (o : RangeOrder) : M unit :=
  λ w, match UpdateInterval (config (cache w)) with
       | Some _ =>
           (send_close;; reset_UpdateFuncs o;; clear_UpdateFuncs) w
       | None => Returned tt w
       end.

(** [go func() { ... select ... }()]: the new goroutine parks on [close]. *)
Definition go_update_loop : M unit :=
  λ w, Returned tt
         (emit EvGo (with_cache (with_close (chan_park (close (cache w))) (cache w)) w)).

Definition StartUpdates : M unit :=
  λ w, if size (UpdateFuncs (cache w)) =? 0 then Returned tt w
       else match UpdateInterval (config (cache w)) with
            | Some _ => go_update_loop w
            | None => Returned tt w
            end.

Definition StartAndManageUpdates (o oc : RangeOrder) : M unit :=
  err ← UpdateContent o;
  match err with
  | Some e => send_error e;; Close oc;; mret tt
  | None => StartUpdates
  end.

(** *** The goroutine of [StartUpdates] *)

(** [case <-ticker.C]: one parked goroutine runs a cycle and reports a
    failure; when the error channel cannot take it, the goroutine is
    parked in that send and no longer waits on [close]. *)
Definition ticker_fires (o : RangeOrder) (w : World) : World :=
  if recvq (close (cache w)) =? 0 then w
  else match UpdateContent o w with
       | Returned (Some e) w' =>
           match send_error e w' with
           | Returned _ w'' => w''
           | Blocked w'' => with_cache (with_close (chan_unpark (close (cache w''))) (cache w'')) w''
           end
       | Returned None w' => w'
       | Blocked w' => w'
       end.

(** [case <-ctx.Done()]: the goroutines started so far leave; nothing else
    changes.  The step is the cancellation itself: what a goroutine started
    later does with the cancelled context is not followed. *)
Definition ctx_done (w : World) : World :=
  with_cache (with_close (chan_unpark_all (close (cache w))) (cache w)) w.

(** [<-errorChannel] in the host: the oldest buffered error is taken.  A
    goroutine parked in a send on the channel is not followed further. *)
Definition host_receives (w : World) : World :=
  with_errorChannel
    (mkChan (cap (errorChannel w)) (tail (buf (errorChannel w)))
            (recvq (errorChannel w))) w.

(** *** Histories *)

(** One thing that happens to the engine: a call of its interface, or a
    step of its goroutine.  Of a call that parks, [exec] keeps the world at
    the send; the parked call is not followed further. *)
Inductive Op : Type :=
  | OpSet (key : string) (v : Value)
  | OpAddUpdateFunc (key : string) (f : UpdateFunc)
  | OpUpdateContent (o : RangeOrder)
  | OpClose (o : RangeOrder)
  | OpStartUpdates
  | OpStartAndManageUpdates (o oc : RangeOrder)
  | OpTick (o : RangeOrder)
  | OpCtxDone
  | OpReceiveError.

Definition exec (op : Op) (w : World) : World :=
  match op with
  | OpSet key v => world_of (Set_ key v w)
  | OpAddUpdateFunc key f => world_of (AddUpdateFunc key f w)
  | OpUpdateContent o => world_of (UpdateContent o w)
  | OpClose o => world_of (Close o w)
  | OpStartUpdates => world_of (StartUpdates w)
  | OpStartAndManageUpdates o oc => world_of (StartAndManageUpdates o oc w)
  | OpTick o => ticker_fires o w
  | OpCtxDone => ctx_done w
  | OpReceiveError => host_receives w
  end.

(** The world around a cache that [NewCache] has just returned. *)
Definition boot (c : Cache) (e : Env) (ch : Chan string) : World :=
  mkWorld c e ch [].

Inductive Reachable : World → Prop :=
  | Reachable_new cfg c e ch :
      NewCache cfg = (Some c, None) → Reachable (boot c e ch)
  | Reachable_step op w :
      Reachable w → Reachable (exec op w).

End Engine.

Arguments UpdateFunc : clear implicits.
Arguments Cache : clear implicits.
Arguments World : clear implicits.
Arguments Outcome : clear implicits.
Arguments M : clear implicits.
Arguments RangeOrder : clear implicits.
Arguments Op : clear implicits.

(** A history of operations, executed from left to right. *)
Definition run {Env : Type} (ops : list (Op Env)) (w : World Env) : World Env :=
  foldl (λ w op, exec op w) w ops.

(** ** Iteration orders and hosts used in the examples *)

(** The entries in the order in which the map lists them. *)
Definition map_order {Env : Type} : RangeOrder Env :=
  mkRangeOrder (λ l, l) (λ l, Permutation_refl l).

(** The entry of [key] first, the others after it. *)
Definition first_key {Env : Type} (key : string) : RangeOrder Env :=
  mkRangeOrder
    (λ l, filter (λ p, p.1 = key) l ++ filter (λ p, ¬ p.1 = key) l)
    (λ l, filter_app_complement (λ p, p.1 = key) l).

(** The entry of [key] last, the others before it. *)
Definition last_key {Env : Type} (key : string) : RangeOrder Env :=
  mkRangeOrder
    (λ l, filter (λ p, ¬ p.1 = key) l ++ filter (λ p, p.1 = key) l)
    (λ l, Permutation_trans (Permutation_app_comm _ _)
            (filter_app_complement (λ p, p.1 = key) l)).

(** An update function that returns [v]. *)
Definition always (v : Value) : UpdateFunc unit :=
  λ _ en, ((v, None), en).

(** An update function that fails, as "error_update_func" of
    cache_test.go. *)
Definition failing (msg : string) : UpdateFunc unit :=
  λ _ en, ((VNil, Some msg), en).

(** The closure registered under "int" by [getTestCache] of
    cache_test.go: it reads the cache. *)
Definition next_int : UpdateFunc unit :=
  λ d en, match d !! "int" with
          | Some (VInt 1) => ((VInt 2, None), en)
          | _ => ((VInt 3, None), en)
          end.

(** A host that counts: each call returns the counter and advances it. *)
Definition counter : UpdateFunc nat :=
  λ _ n, ((VInt (Z.of_nat n), None), S n).

Definition one_shot : Config := mkConfig None.
Definition every_ms : Config := mkConfig (Some 1000000%Z).

(** A new cache in a host whose error channel is [make(chan error, 1)]. *)
Definition fresh {Env : Type} (cfg : Config) (e : Env) : World Env :=
  boot (new_cache cfg) e (make_chan 1).

(** ** Example engines *)

(** One-shot mode with one registered function. *)
Definition w_one_shot : World unit :=
  run [OpAddUpdateFunc "a" (always (VInt 1))] (fresh one_shot tt).

(** Interval mode; "a" and "c" succeed, "b" fails; "c" holds an old value. *)
Definition w_abc : World unit :=
  run [OpSet "c" (VInt 0);
       OpAddUpdateFunc "a" (always (VInt 1));
       OpAddUpdateFunc "b" (failing "boom");
       OpAddUpdateFunc "c" (always (VInt 3))] (fresh every_ms tt).

(** Interval mode, never started: "a" is stored and registered. *)
Definition w_idle : World unit :=
  run [OpSet "a" (VInt 5); OpAddUpdateFunc "a" (always (VInt 1))]
      (fresh every_ms tt).

(** Interval mode, started: "int" is stored and registered, "new" is
    registered and was never written, "other" is stored and not
    registered. *)
Definition w_running : World unit :=
  run [OpSet "int" (VInt 1); OpSet "other" (VBool true);
       OpAddUpdateFunc "int" next_int;
       OpAddUpdateFunc "new" (always (VFloat 0));
       OpStartUpdates] (fresh every_ms tt).

(** As [w_running], after the context of the goroutine was cancelled. *)
Definition w_cancelled : World unit := exec OpCtxDone w_running.

(** Interval mode, never started, the only function fails. *)
Definition w_failing : World unit :=
  run [OpAddUpdateFunc "k" (failing "boom")] (fresh every_ms tt).

(** One-shot mode, the only function fails. *)
Definition w_failing_one_shot : World unit :=
  run [OpAddUpdateFunc "k" (failing "boom")] (fresh one_shot tt).

(** Interval mode with nothing registered; "x" is stored. *)
Definition w_unregistered : World unit :=
  run [OpSet "x" (VString "kept")] (fresh every_ms tt).

(** ** The cache of cache_test.go *)

(** The float64 constants of the tests, as IEEE 754 bit patterns. *)
Definition f1_1 : Z := 0x3FF199999999999A.
Definition f2_2 : Z := 0x400199999999999A.
Definition f3_3 : Z := 0x400A666666666666.

(** The closures that [getTestCache] registers under "string", "bool" and
    "float"; [next_int] is the one under "int". *)
Definition next_string : UpdateFunc unit :=
  λ d en, match d !! "string" with
          | Some (VString "test") => ((VString "test2", None), en)
          | _ => ((VString "test3", None), en)
          end.

Definition next_bool : UpdateFunc unit :=
  λ d en, match d !! "bool" with
          | Some (VBool false) => ((VBool true, None), en)
          | _ => ((VBool false, None), en)
          end.

Definition next_float : UpdateFunc unit :=
  λ d en, match d !! "float" with
          | Some (VFloat b) =>
              if (b =? f1_1)%Z then ((VFloat f2_2, None), en)
              else ((VFloat f3_3, None), en)
          | _ => ((VFloat f3_3, None), en)
          end.

(** The four values that [getTestCache] stores. *)
Definition testValues (cfg : Config) : World unit :=
  run [OpSet "string" (VString "test");
       OpSet "int" (VInt 1);
       OpSet "bool" (VBool false);
       OpSet "float" (VFloat f1_1)] (fresh cfg tt).

Definition getTestCache (cfg : Config) : World unit :=
  run [OpAddUpdateFunc "string" next_string;
       OpAddUpdateFunc "int" next_int;
       OpAddUpdateFunc "bool" next_bool;
       OpAddUpdateFunc "float" next_float] (testValues cfg).

Definition every_20ms : Config := mkConfig (Some 20000000%Z).

(** The four values that the tests read back. *)
Definition readings (w : World unit) : list (Value * bool) :=
  [Get "string" (cache w); Get "int" (cache w);
   Get "bool" (cache w); Get "float" (cache w)].

(** A cache whose function takes its value from the host's counter. *)
Definition w_counter : World nat :=
  run [OpAddUpdateFunc "n" counter] (fresh one_shot 0).

(** Interval mode; "a" and "c" return constants; "c" holds an old value. *)
Definition w_two : World unit :=
  run [OpSet "c" (VInt 0);
       OpAddUpdateFunc "a" (always (VInt 1));
       OpAddUpdateFunc "c" (always (VInt 3))] (fresh every_ms tt).

(** [w_abc] with its goroutine started. *)
Definition w_abc_running : World unit := exec OpStartUpdates w_abc.

(** [w_abc_running] after a tick whose error filled the host's channel. *)
Definition w_abc_reported : World unit :=
  exec (OpTick (last_key "c")) w_abc_running.

(** [key] has been written: the history holds a store under it. *)
Definition written (key : string) (tr : list Event) : Prop :=
  ∃ v, EvStore key v ∈ tr.

(** The store holds exactly the keys that the history has written. *)
Definition store_matches_history {Env : Type} (w : World Env) : Prop :=
  ∀ key, is_Some (data (cache w) !! key) ↔ written key (trace w).

(** A computation that keeps [store_matches_history], blocked or not. *)
Definition keeps_history {Env A : Type} (m : M Env A) : Prop :=
  ∀ w, store_matches_history w → store_matches_history (world_of (m w)).

(** ** The example of examples/topic-example/topics/topics.go *)

Module Topics.

Record SubTopicItem : Type := mkSubTopicItem {
  Sub_ID : Z;
  Sub_Name : string
}.

Record TopicItem : Type := mkTopicItem {
  ID : Z;
  Name : string;
  SubTopics : list SubTopicItem
}.

(** The package variables [MOCK_API_CLIENT_ID] and [count]. *)
Record Globals : Type := mkGlobals {
  MOCK_API_CLIENT_ID : Z;
  count : Z
}.

(** Their initial values. *)
Definition init : Globals := mkGlobals 1 0.

(** Go's [int] on a 64-bit platform: [++] wraps around. *)
Definition wrap_int (z : Z) : Z := ((z + 2 ^ 63) mod 2 ^ 64 - 2 ^ 63)%Z.

(** One call of the closure that [UpdateTopic] returns: the sub-topic is
    chosen by [count], which moves on, and the mock client numbers the
    topic with the incremented [MOCK_API_CLIENT_ID]. *)
Definition UpdateTopic (g : Globals) : TopicItem * Globals :=
  let '(subTopicItem, count') :=
    if (count g =? 0)%Z then (mkSubTopicItem 8341 "age", 1%Z)
    else if (count g =? 1)%Z then (mkSubTopicItem 2223 "Migration", 2%Z)
    else if (count g =? 2)%Z then (mkSubTopicItem 7845 "Sex", 0%Z)
    else (mkSubTopicItem 0 EmptyString, count g) in
  let id := wrap_int (MOCK_API_CLIENT_ID g + 1) in
  (mkTopicItem id "Census" [subTopicItem], mkGlobals id count').

(** The package variables after [n] calls. *)
Definition after_calls (n : nat) (g : Globals) : Globals :=
  Nat.iter n (λ g, (UpdateTopic g).2) g.

End Topics.

(** ** Further vocabulary for histories *)

#[global] Instance Event_eq_dec : EqDecision Event.
Proof. solve_decision. Defined.

(** The value of the most recent store under [key], if there is one. *)
Fixpoint last_store (key : string) (tr : list Event) : option Value :=
  match tr with
  | [] => None
  | ev :: tr' =>
      match last_store key tr' with
      | Some v => Some v
      | None =>
          match ev with
          | EvStore k v => if decide (k = key) then Some v else None
          | _ => None
          end
      end
  end.

Definition is_go (ev : Event) : bool :=
  match ev with EvGo => true | _ => false end.

Definition is_send_close (ev : Event) : bool :=
  match ev with EvSendClose => true | _ => false end.

Definition is_store (ev : Event) : bool :=
  match ev with EvStore _ _ => true | _ => false end.

(** How many events of a kind a history holds. *)
Fixpoint count_events (p : Event → bool) (tr : list Event) : nat :=
  match tr with
  | [] => 0
  | ev :: tr' => (if p ev then 1 else 0) + count_events p tr'
  end.

(** [e] is the error that [UpdateContent] builds from a failed call that
    the history holds. *)
Definition reported_failure (e : string) (tr : list Event) : Prop :=
  ∃ key v cause, EvCall key (v, Some cause) ∈ tr ∧ e = update_error key cause.

(** A property of worlds that every elementary step of cache.go keeps, each
    step taken where the code takes it: the sends on [close] and the [go]
    statement only with an interval, the send on the error channel only
    with the error of a failed call. *)
Record StepInvariant {Env : Type} (I : World Env → Prop) : Prop := {
  si_store : ∀ key v w, I w → I (world_of (data_Store key v w));
  si_call : ∀ key f w, I w → I (world_of (call key f w));
  si_add : ∀ key f w, I w → I (world_of (AddUpdateFunc key f w));
  si_clear : ∀ w, I w → I (world_of (clear_UpdateFuncs w));
  si_send_close : ∀ w,
    I w → is_Some (UpdateInterval (config (cache w))) →
    I (world_of (send_close w));
  si_go : ∀ w,
    I w → is_Some (UpdateInterval (config (cache w))) →
    I (world_of (go_update_loop w));
  si_send_error : ∀ e w,
    I w → reported_failure e (trace w) → I (world_of (send_error e w));
  si_unpark : ∀ w,
    I w → I (with_cache (with_close (chan_unpark (close (cache w))) (cache w)) w);
  si_ctx_done : ∀ w, I w → I (ctx_done w);
  si_host_receives : ∀ w, I w → I (host_receives w)
}.

(** ** Facts about the primitives *)

Section Facts.

Context {Env : Type}.

Implicit Types (w : World Env) (o : RangeOrder Env) (f : UpdateFunc Env).
Implicit Types (entries pre post : list (string * UpdateFunc Env)).

Lemma bind_unfold {A B} (m : M Env A) (k : A → M Env B) w :
  (m ≫= k) w = match m w with Returned a w' => k a w' | Blocked w' => Blocked w' end.
Proof. reflexivity. Qed.

(** The keys visited by a [range] loop are those of the map, each once. *)
Lemma range_keys_NoDup o (m : gmap string (UpdateFunc Env)) : NoDup (range o m).*1.
Proof.
  unfold range. rewrite (range_perm o). apply NoDup_fst_map_to_list.
Qed.

Lemma range_elem_of o (m : gmap string (UpdateFunc Env)) key f :
  (key, f) ∈ range o m ↔ m !! key = Some f.
Proof.
  unfold range. rewrite (range_perm o). apply elem_of_map_to_list.
Qed.

Lemma range_key_elem_of o (m : gmap string (UpdateFunc Env)) key :
  key ∈ (range o m).*1 ↔ key ∈ dom m.
Proof.
  rewrite elem_of_dom, list_elem_of_fmap. split.
  - intros [[k f] [-> Hin]]. apply range_elem_of in Hin. eauto.
  - intros [f Hf]. exists (key, f). split; [done|]. by apply range_elem_of.
Qed.

Lemma range_empty o : range o (∅ : gmap string (UpdateFunc Env)) = [].
Proof.
  unfold range. rewrite map_to_list_empty.
  apply Permutation_nil_r. apply range_perm.
Qed.

Lemma calls_app key tr1 tr2 :
  calls key (tr1 ++ tr2) = calls key tr1 + calls key tr2.
Proof.
  induction tr1 as [|ev tr1 IH]; [done|].
  destruct ev; simpl; rewrite IH; lia.
Qed.

(** A cycle over entries whose functions all succeed: what it leaves. *)
Lemma update_each_None entries : ∀ w w1,
  NoDup entries.*1 →
  update_each entries w = Returned None w1 →
  ∃ evs,
    trace w1 = trace w ++ evs ∧
    (∀ ev, ev ∈ evs →
       ∃ k, k ∈ entries.*1 ∧ ((∃ r, ev = EvCall k r) ∨ (∃ x, ev = EvStore k x))) ∧
    (∀ k x, EvStore k x ∈ evs → data (cache w1) !! k = Some x) ∧
    (∀ k, k ∈ entries.*1 → ∃ x, EvCall k (x, None) ∈ evs ∧ EvStore k x ∈ evs) ∧
    (∀ k, k ∉ entries.*1 → data (cache w1) !! k = data (cache w) !! k) ∧
    config (cache w1) = config (cache w) ∧
    close (cache w1) = close (cache w) ∧
    UpdateFuncs (cache w1) = UpdateFuncs (cache w) ∧
    errorChannel w1 = errorChannel w ∧
    (∀ k, calls k evs = if decide (k ∈ entries.*1) then 1 else 0).
Proof.
  induction entries as [|[k0 f0] rest IH]; intros w w1 Hnd Hrun.
  - injection Hrun as <-. exists []. rewrite app_nil_r.
    repeat split; try done; intros; set_solver.
  - simpl in Hrun. rewrite bind_unfold in Hrun. unfold call in Hrun.
    destruct (f0 (data (cache w)) (env w)) as [[x err] en'] eqn:Hf.
    simpl in Hrun. destruct err as [err|]; [discriminate|].
    rewrite bind_unfold in Hrun. simpl in Hrun.
    apply NoDup_cons in Hnd as [Hk0 Hnd]. simpl in Hk0.
    destruct (IH _ _ Hnd Hrun)
      as (evs & Htr & Hevs & Hst & Hin & Hout & Hc & Hcl & Hu & He & Hcalls).
    assert (∀ k, calls k (EvCall k0 (x, None) :: EvStore k0 x :: evs)
                 = if decide (k ∈ ((k0, f0) :: rest).*1) then 1 else 0)
      as Hcalls'.
    { intros k. cbn [calls]. rewrite (Hcalls k), fmap_cons. cbn [fst].
      destruct (decide (k0 = k)) as [<-|Hne].
      - rewrite (decide_False (P:=k0 ∈ rest.*1)) by done.
        by rewrite decide_True by (apply elem_of_cons; by left).
      - destruct (decide (k ∈ rest.*1)) as [Hr|Hr].
        + by rewrite decide_True by (apply elem_of_cons; by right).
        + rewrite decide_False; [done|].
          intros [?|?]%elem_of_cons; congruence. }
    clear Hcalls.
    exists (EvCall k0 (x, None) :: EvStore k0 x :: evs).
    simpl in *. repeat split.
    + rewrite Htr. by rewrite <- !app_assoc.
    + intros ev Hev. apply elem_of_cons in Hev as [->|Hev].
      { exists k0. split; [apply elem_of_cons; by left | left; eauto]. }
      apply elem_of_cons in Hev as [->|Hev].
      { exists k0. split; [apply elem_of_cons; by left | right; eauto]. }
      destruct (Hevs ev Hev) as (k & Hk & Hd). exists k.
      split; [apply elem_of_cons; by right | done].
    + intros k y Hev. apply elem_of_cons in Hev as [?|Hev]; [done|].
      apply elem_of_cons in Hev as [Heq|Hev]; [|by apply Hst].
      injection Heq as -> ->. rewrite (Hout k0 Hk0). by rewrite lookup_insert_eq.
    + intros k Hk. apply elem_of_cons in Hk as [->|Hk].
      * exists x. split; [apply elem_of_cons; by left|].
        apply elem_of_cons; right. apply elem_of_cons; by left.
      * destruct (Hin k Hk) as (y & ? & ?). exists y.
        split; (apply elem_of_cons; right; apply elem_of_cons; by right).
    + intros k Hk. apply not_elem_of_cons in Hk as [Hne Hk].
      rewrite (Hout k Hk). by rewrite lookup_insert_ne.
    + done.
    + done.
    + done.
    + done.
    + exact Hcalls'.
Qed.

(** A cycle does not block: it returns whatever the functions do. *)
Lemma update_each_returns entries : ∀ w,
  ∃ r w', update_each entries w = Returned r w'.
Proof.
  induction entries as [|[k0 f0] rest IH]; intros w; [by eexists _, _|].
  simpl. rewrite bind_unfold. unfold call.
  destruct (f0 (data (cache w)) (env w)) as [[x err] en'].
  simpl. destruct err as [err|]; [by eexists _, _|].
  rewrite bind_unfold. simpl. apply IH.
Qed.

(** Functions that cannot fail make the cycle succeed. *)
Lemma update_each_all_ok entries : ∀ w,
  (∀ k g, (k, g) ∈ entries → ∀ d en, (g d en).1.2 = None) →
  ∃ w1, update_each entries w = Returned None w1.
Proof.
  induction entries as [|[k0 f0] rest IH]; intros w Hok; [by eexists|].
  simpl. rewrite bind_unfold. unfold call.
  pose proof (Hok k0 f0 ltac:(apply elem_of_cons; by left)
                (data (cache w)) (env w)) as Hf0.
  destruct (f0 (data (cache w)) (env w)) as [[x err] en']. simpl in Hf0. subst err.
  simpl. rewrite bind_unfold. simpl. apply IH.
  intros k g Hin. apply (Hok k g). apply elem_of_cons. by right.
Qed.

(** The cycle stops at the first function that fails. *)
Lemma update_each_fail pre : ∀ w w1 key f post v e en',
  update_each pre w = Returned None w1 →
  f (data (cache w1)) (env w1) = ((v, Some e), en') →
  update_each (pre ++ (key, f) :: post) w
  = Returned (Some (update_error key e))
             (emit (EvCall key (v, Some e)) (with_env en' w1)).
Proof.
  induction pre as [|[k0 f0] rest IH]; intros w w1 key f post v e en' Hrun Hf.
  - injection Hrun as <-. simpl. rewrite bind_unfold. unfold call. by rewrite Hf.
  - simpl in *. rewrite bind_unfold in *. unfold call in *.
    destruct (f0 (data (cache w)) (env w)) as [[x err] en0].
    simpl in *. destruct err as [err|]; [discriminate|].
    rewrite bind_unfold in *. simpl in *. by eapply IH.
Qed.

Lemma update_each_stops pre key f post w w1 v e en' :
  NoDup (pre ++ (key, f) :: post).*1 →
  update_each pre w = Returned None w1 →
  f (data (cache w1)) (env w1) = ((v, Some e), en') →
  ∃ w' evs,
    update_each (pre ++ (key, f) :: post) w
    = Returned (Some (update_error key e)) w' ∧
    trace w' = trace w ++ evs ∧
    EvCall key (v, Some e) ∈ evs ∧
    (∀ k r, k ∈ post.*1 → EvCall k r ∉ evs) ∧
    (∀ k x, EvStore k x ∈ evs → data (cache w') !! k = Some x) ∧
    (∀ k, k ∈ pre.*1 → ∃ x, EvCall k (x, None) ∈ evs ∧ EvStore k x ∈ evs) ∧
    (∀ k, k ∉ pre.*1 → data (cache w') !! k = data (cache w) !! k) ∧
    UpdateFuncs (cache w') = UpdateFuncs (cache w).
Proof.
  intros Hnd Hrun Hf.
  rewrite fmap_app, fmap_cons in Hnd. simpl in Hnd.
  apply NoDup_app in Hnd as (Hpre & Hdisj & Hrest).
  apply NoDup_cons in Hrest as [Hkey Hpost].
  destruct (update_each_None _ _ _ Hpre Hrun)
    as (evs & Htr & Hevs & Hst & Hin & Hout & _ & _ & Hu & _).
  eexists _, (evs ++ [EvCall key (v, Some e)]).
  split; [by eapply update_each_fail|]. simpl.
  split; [by rewrite Htr, app_assoc|].
  split; [apply elem_of_app; right; by apply list_elem_of_singleton|].
  split.
  { intros k r Hk Hev. apply elem_of_app in Hev as [Hev|Hev].
    - destruct (Hevs _ Hev) as (k' & Hk' & [[r' [= -> ->]]|[x' [=]]]).
      apply (Hdisj k' Hk'). apply elem_of_cons. by right.
    - apply list_elem_of_singleton in Hev as [= -> ->]. done. }
  split.
  { intros k x Hev. apply elem_of_app in Hev as [Hev|Hev]; [by apply Hst|].
    by apply list_elem_of_singleton in Hev. }
  split.
  { intros k Hk. destruct (Hin k Hk) as (x & ? & ?). exists x.
    split; apply elem_of_app; by left. }
  done.
Qed.

(** *** [Close] *)

Lemma reset_each_spec entries : ∀ w,
  ∃ w' evs,
    reset_each entries w = Returned tt w' ∧
    trace w' = trace w ++ evs ∧
    (∀ ev, ev ∈ evs → ∃ k, k ∈ entries.*1 ∧ ev = EvStore k (VString EmptyString)) ∧
    (∀ k, k ∈ entries.*1 → data (cache w') !! k = Some (VString EmptyString)) ∧
    (∀ k, k ∉ entries.*1 → data (cache w') !! k = data (cache w) !! k) ∧
    config (cache w') = config (cache w) ∧
    close (cache w') = close (cache w) ∧
    UpdateFuncs (cache w') = UpdateFuncs (cache w) ∧
    errorChannel w' = errorChannel w ∧
    env w' = env w.
Proof.
  induction entries as [|[k0 f0] rest IH]; intros w.
  - exists w, []. rewrite app_nil_r. repeat split; try done.
    + intros ev Hev. by apply elem_of_nil in Hev.
    + intros k Hk. by apply elem_of_nil in Hk.
  - simpl. rewrite bind_unfold. simpl.
    destruct (IH (emit (EvStore k0 (VString EmptyString))
                    (with_cache (with_data (<[k0:=VString EmptyString]> (data (cache w)))
                                   (cache w)) w)))
      as (w' & evs & Hrun & Htr & Hevs & Hin & Hout & Hc & Hcl & Hu & He & Hen).
    exists w', (EvStore k0 (VString EmptyString) :: evs). simpl in *.
    split; [done|]. split; [by rewrite Htr, <- app_assoc|].
    split.
    { intros ev Hev. apply elem_of_cons in Hev as [->|Hev].
      - exists k0. split; [apply elem_of_cons; by left | done].
      - destruct (Hevs ev Hev) as (k & Hk & ->). exists k.
        split; [apply elem_of_cons; by right | done]. }
    split.
    { intros k Hk. destruct (decide (k ∈ rest.*1)) as [Hr|Hr]; [by apply Hin|].
      apply elem_of_cons in Hk as [->|Hk]; [|done].
      rewrite (Hout k0 Hr). by rewrite lookup_insert_eq. }
    split.
    { intros k Hk. apply not_elem_of_cons in Hk as [Hne Hk].
      rewrite (Hout k Hk). by rewrite lookup_insert_ne. }
    done.
Qed.

(** With no interval [Close] does nothing. *)
Lemma Close_no_interval o w :
  UpdateInterval (config (cache w)) = None → Close o w = Returned tt w.
Proof. intros H. unfold Close. by rewrite H. Qed.

(** With an interval and no goroutine waiting on the unbuffered [close],
    the send of [Close] has no receiver. *)
Lemma Close_not_running o w d :
  UpdateInterval (config (cache w)) = Some d →
  cap (close (cache w)) = 0 →
  recvq (close (cache w)) = 0 →
  Close o w = Blocked w.
Proof.
  intros Hd Hc Hq. unfold Close. rewrite Hd, !bind_unfold.
  unfold send_close, chan_send. rewrite Hq, Hc. simpl.
  by destruct (length (buf (close (cache w)))).
Qed.

(** With an interval and a goroutine waiting on [close], [Close] hands the
    signal over, stores the empty string under every registered key and
    empties the registry. *)
Lemma Close_running o w d :
  UpdateInterval (config (cache w)) = Some d →
  0 < recvq (close (cache w)) →
  ∃ w' evs,
    Close o w = Returned tt w' ∧
    trace w' = trace w ++ EvSendClose :: evs ∧
    (∀ ev, ev ∈ evs →
       ∃ k, k ∈ dom (UpdateFuncs (cache w)) ∧ ev = EvStore k (VString EmptyString)) ∧
    (∀ k, k ∈ dom (UpdateFuncs (cache w)) →
       data (cache w') !! k = Some (VString EmptyString)) ∧
    (∀ k, k ∉ dom (UpdateFuncs (cache w)) →
       data (cache w') !! k = data (cache w) !! k) ∧
    UpdateFuncs (cache w') = ∅ ∧
    config (cache w') = config (cache w) ∧
    recvq (close (cache w')) = recvq (close (cache w)) - 1 ∧
    cap (close (cache w')) = cap (close (cache w)) ∧
    errorChannel w' = errorChannel w ∧
    env w' = env w.
Proof.
  intros Hd Hq. unfold Close. rewrite Hd, !bind_unfold.
  unfold send_close, chan_send.
  destruct (0 <? recvq (close (cache w))) eqn:E; [|apply Nat.ltb_ge in E; lia].
  rewrite bind_unfold. unfold reset_UpdateFuncs.
  match goal with |- context [reset_each ?l ?w0] =>
    destruct (reset_each_spec l w0)
      as (w' & evs & Hrun & Htr & Hevs & Hin & Hout & Hc & Hcl & Hu & He & Hen);
    rewrite Hrun
  end.
  simpl in *. eexists _, evs. split; [reflexivity|]. simpl.
  split; [by rewrite Htr, <- app_assoc|].
  split.
  { intros ev Hev. destruct (Hevs ev Hev) as (k & Hk & ->). exists k.
    split; [by apply range_key_elem_of in Hk | done]. }
  split.
  { intros k Hk. apply Hin. by apply range_key_elem_of. }
  split.
  { intros k Hk. apply Hout. by rewrite range_key_elem_of. }
  repeat split; try done; by rewrite Hcl.
Qed.

(** *** [StartUpdates] *)

Lemma StartUpdates_unchanged w :
  UpdateFuncs (cache w) = ∅ ∨ UpdateInterval (config (cache w)) = None →
  StartUpdates w = Returned tt w.
Proof.
  intros [H|H]; unfold StartUpdates.
  - by rewrite H, map_size_empty.
  - rewrite H. by destruct (size (UpdateFuncs (cache w)) =? 0).
Qed.

(** *** The store and its history *)

Lemma written_snoc key tr ev :
  written key (tr ++ [ev]) ↔ written key tr ∨ ∃ v, ev = EvStore key v.
Proof.
  unfold written. split.
  - intros [v Hv]. apply elem_of_app in Hv as [Hv|Hv]; [left; eauto|].
    apply list_elem_of_singleton in Hv. right; eauto.
  - intros [[v Hv]|[v ->]]; exists v; apply elem_of_app;
      [by left | right; by apply list_elem_of_singleton].
Qed.

Lemma history_same w w' :
  data (cache w') = data (cache w) → trace w' = trace w →
  store_matches_history w → store_matches_history w'.
Proof. intros Hd Ht Hw key. rewrite Hd, Ht. apply Hw. Qed.

Lemma history_other_event w w' ev :
  data (cache w') = data (cache w) → trace w' = trace w ++ [ev] →
  (∀ k v, ev ≠ EvStore k v) →
  store_matches_history w → store_matches_history w'.
Proof.
  intros Hd Ht Hev Hw key. rewrite Hd, Ht, written_snoc, (Hw key).
  split; [by left|]. intros [?|[v ->]]; [done|]. by destruct (Hev key v).
Qed.

Lemma keeps_ret {A} (a : A) : keeps_history (mret a : M Env A).
Proof. by intros w Hw. Qed.

Lemma keeps_bind {A B} (m : M Env A) (k : A → M Env B) :
  keeps_history m → (∀ a, keeps_history (k a)) → keeps_history (m ≫= k).
Proof.
  intros Hm Hk w Hw. rewrite bind_unfold. specialize (Hm w Hw).
  destruct (m w) as [a w'|w']; simpl in *; [by apply Hk | done].
Qed.

Lemma keeps_data_Store key v : keeps_history (data_Store (Env:=Env) key v).
Proof.
  intros w Hw k. simpl. rewrite written_snoc, <- (Hw k).
  destruct (decide (key = k)) as [->|Hne].
  - rewrite lookup_insert_eq. split; [right; eauto | eauto].
  - rewrite lookup_insert_ne by done. split; [by left|].
    intros [?|[x [= ? ?]]]; [done | congruence].
Qed.

Lemma keeps_call key f : keeps_history (call key f).
Proof.
  intros w Hw. unfold call.
  destruct (f (data (cache w)) (env w)) as [r en'] eqn:Hf. simpl.
  by eapply (history_other_event w _ (EvCall key r)).
Qed.

Lemma keeps_send_close : keeps_history (send_close (Env:=Env)).
Proof.
  intros w Hw. unfold send_close.
  destruct (chan_send () (close (cache w))); simpl; [|done].
  by eapply (history_other_event w _ EvSendClose).
Qed.

Lemma keeps_send_error e : keeps_history (send_error (Env:=Env) e).
Proof.
  intros w Hw. unfold send_error.
  destruct (chan_send e (errorChannel w)); simpl; [|done].
  by eapply (history_other_event w _ (EvSendError e)).
Qed.

Lemma keeps_update_each entries : keeps_history (update_each entries).
Proof.
  induction entries as [|[k0 f0] rest IH]; [apply keeps_ret|].
  simpl. apply keeps_bind; [apply keeps_call|]. intros [x [err|]]; simpl.
  - apply keeps_ret.
  - apply keeps_bind; [apply keeps_data_Store | done].
Qed.

Lemma keeps_reset_each entries : keeps_history (reset_each entries).
Proof.
  induction entries as [|[k0 f0] rest IH]; [apply keeps_ret|].
  simpl. apply keeps_bind; [apply keeps_data_Store | done].
Qed.

Lemma keeps_UpdateContent o : keeps_history (UpdateContent o).
Proof. intros w. apply keeps_update_each. Qed.

Lemma keeps_Close o : keeps_history (Close o).
Proof.
  intros w Hw. unfold Close.
  destruct (UpdateInterval (config (cache w))); [|done].
  revert w Hw. apply keeps_bind; [apply keeps_send_close|]. intros _.
  apply keeps_bind; [intros w; apply keeps_reset_each|]. intros _.
  intros w Hw. by eapply history_same.
Qed.

Lemma keeps_StartUpdates : keeps_history (StartUpdates (Env:=Env)).
Proof.
  intros w Hw. unfold StartUpdates.
  destruct (size (UpdateFuncs (cache w)) =? 0); [done|].
  destruct (UpdateInterval (config (cache w))); [|done].
  by eapply (history_other_event w _ EvGo).
Qed.

Lemma keeps_StartAndManageUpdates o oc :
  keeps_history (StartAndManageUpdates o oc).
Proof.
  apply keeps_bind; [apply keeps_UpdateContent|]. intros [e|].
  - apply keeps_bind; [apply keeps_send_error|]. intros _.
    apply keeps_bind; [apply keeps_Close|]. intros _. apply keeps_ret.
  - apply keeps_StartUpdates.
Qed.

Lemma ticker_fires_keeps o w :
  store_matches_history w → store_matches_history (ticker_fires o w).
Proof.
  intros Hw. unfold ticker_fires.
  destruct (recvq (close (cache w)) =? 0); [done|].
  pose proof (keeps_UpdateContent o w Hw) as Hu.
  destruct (UpdateContent o w) as [[e|] w'|w']; simpl in Hu; try done.
  pose proof (keeps_send_error e w' Hu) as Hs.
  destruct (send_error e w') as [[] w''|w'']; simpl in Hs; [done|].
  by eapply history_same.
Qed.

Lemma exec_keeps op w :
  store_matches_history w → store_matches_history (exec op w).
Proof.
  intros Hw. destruct op; simpl.
  - by apply keeps_data_Store.
  - by eapply history_same.
  - by apply keeps_UpdateContent.
  - by apply keeps_Close.
  - by apply keeps_StartUpdates.
  - by apply keeps_StartAndManageUpdates.
  - by apply ticker_fires_keeps.
  - by eapply history_same.
  - by eapply history_same.
Qed.

Lemma Reachable_history w : Reachable w → store_matches_history w.
Proof.
  induction 1 as [cfg c e ch Hnew|op w _ IH]; [|by apply exec_keeps].
  intros key. unfold boot, written. simpl.
  assert (data c = ∅) as ->.
  { unfold NewCache in Hnew. destruct (UpdateInterval cfg) as [d|];
      [destruct (d <=? 0)%Z|]; by simplify_eq. }
  rewrite lookup_empty. split; [by intros [? ?]|].
  intros [v Hv]. by apply elem_of_nil in Hv.
Qed.

Lemma Reachable_run ops : ∀ w, Reachable w → Reachable (run ops w).
Proof.
  induction ops as [|op ops IH]; intros w Hw; [done|].
  simpl. apply IH. by constructor.
Qed.

(** *** What a cycle leaves alone *)

Lemma update_each_frame entries : ∀ w r w',
  update_each entries w = Returned r w' →
  config (cache w') = config (cache w) ∧
  close (cache w') = close (cache w) ∧
  UpdateFuncs (cache w') = UpdateFuncs (cache w) ∧
  errorChannel w' = errorChannel w.
Proof.
  induction entries as [|[k0 f0] rest IH]; intros w r w' Hrun.
  - by injection Hrun as <- <-.
  - simpl in Hrun. rewrite bind_unfold in Hrun. unfold call in Hrun.
    destruct (f0 (data (cache w)) (env w)) as [[x err] en'].
    simpl in Hrun. destruct err as [err|]; [by injection Hrun as <- <-|].
    rewrite bind_unfold in Hrun. simpl in Hrun.
    by destruct (IH _ _ _ Hrun) as (-> & -> & -> & ->).
Qed.

Lemma range_singleton o key f :
  range o (<[key := f]> (∅ : gmap string (UpdateFunc Env))) = [(key, f)].
Proof.
  unfold range. rewrite insert_empty, map_to_list_singleton.
  apply Permutation_singleton_r. apply range_perm.
Qed.

(** *** [StartAndManageUpdates] after a failed first cycle *)

Lemma StartAndManageUpdates_failure o oc w e w1 :
  UpdateContent o w = Returned (Some e) w1 →
  StartAndManageUpdates o oc w
  = (send_error e ≫= λ _, Close oc ≫= λ _, mret tt) w1.
Proof.
  intros Hrun. unfold StartAndManageUpdates.
  rewrite bind_unfold. by rewrite Hrun.
Qed.

(** In one-shot mode the error is handed to the host and the call returns;
    nothing is reset. *)
Lemma StartAndManageUpdates_failure_one_shot o oc w e w1 ch :
  UpdateContent o w = Returned (Some e) w1 →
  UpdateInterval (config (cache w)) = None →
  chan_send e (errorChannel w) = Some ch →
  StartAndManageUpdates o oc w
  = Returned tt (emit (EvSendError e) (with_errorChannel ch w1)).
Proof.
  intros Hrun Hcfg Hsend.
  rewrite (StartAndManageUpdates_failure o oc w e w1 Hrun).
  destruct (update_each_frame _ _ _ _ Hrun) as (Hc & _ & _ & He).
  rewrite bind_unfold. unfold send_error. rewrite He, Hsend.
  rewrite bind_unfold, Close_no_interval; [done|].
  simpl. by rewrite Hc.
Qed.

(** In interval mode, when no goroutine waits on [close], the error is
    handed to the host and the call is then parked in [Close]. *)
Lemma StartAndManageUpdates_failure_idle o oc w e w1 d ch :
  UpdateContent o w = Returned (Some e) w1 →
  UpdateInterval (config (cache w)) = Some d →
  cap (close (cache w)) = 0 →
  recvq (close (cache w)) = 0 →
  chan_send e (errorChannel w) = Some ch →
  StartAndManageUpdates o oc w
  = Blocked (emit (EvSendError e) (with_errorChannel ch w1)).
Proof.
  intros Hrun Hcfg Hcap Hq Hsend.
  rewrite (StartAndManageUpdates_failure o oc w e w1 Hrun).
  destruct (update_each_frame _ _ _ _ Hrun) as (Hc & Hcl & _ & He).
  rewrite bind_unfold. unfold send_error. rewrite He, Hsend.
  rewrite bind_unfold, (Close_not_running _ _ d); [done| | |]; simpl.
  - by rewrite Hc.
  - by rewrite Hcl.
  - by rewrite Hcl.
Qed.


(** *** The goroutine *)

(** With no goroutine a tick changes nothing. *)
Lemma ticker_fires_idle o w :
  recvq (close (cache w)) = 0 → ticker_fires o w = w.
Proof. intros H. unfold ticker_fires. by rewrite H. Qed.

(** Cancellation stops the goroutines and resets nothing. *)
Lemma ctx_done_keeps_store w :
  data (cache (ctx_done w)) = data (cache w) ∧
  UpdateFuncs (cache (ctx_done w)) = UpdateFuncs (cache w) ∧
  recvq (close (cache (ctx_done w))) = 0.
Proof. done. Qed.

(** After a [Close] that stopped the only goroutine, ticks and
    cancellation write nothing. *)
Lemma Close_then_quiet o o' w d w' :
  UpdateInterval (config (cache w)) = Some d →
  recvq (close (cache w)) = 1 →
  Close o w = Returned tt w' →
  ticker_fires o' w' = w' ∧ data (cache (ctx_done w')) = data (cache w').
Proof.
  intros Hd Hq Hrun.
  destruct (Close_running o w d Hd ltac:(lia))
    as (w'' & evs & Hrun' & _ & _ & _ & _ & _ & _ & Hq' & _).
  rewrite Hrun in Hrun'. injection Hrun' as <-.
  split; [|done]. apply ticker_fires_idle. rewrite Hq', Hq. done.
Qed.

End Facts.

(** ** The refresh cycle *)

(** C2. [UpdateContent] stops at the first update function that fails:
    when the iteration visits [pre], then [key], then [post], the functions
    of [pre] succeed and the function of [key] fails with [e], the call
    returns the single error
    "failed to update search cache for <key>. error: <e>";
    no function of [post] is invoked; every value stored during the cycle
    is still in the store when the call returns, and every key of [pre]
    holds the value its function returned. *)
Theorem UpdateContent_first_failure {Env : Type}
    (o : RangeOrder Env) (w w1 : World Env)
    (pre : list (string * UpdateFunc Env)) (key : string) (f : UpdateFunc Env)
    (post : list (string * UpdateFunc Env)) (v : Value) (e : string) (en' : Env) :
  range o (UpdateFuncs (cache w)) = pre ++ (key, f) :: post →
  update_each pre w = Returned None w1 →
  f (data (cache w1)) (env w1) = ((v, Some e), en') →
  ∃ w' evs,
    UpdateContent o w
    = Returned (Some ("failed to update search cache for " +:+ key
                      +:+ ". error: " +:+ e)) w' ∧
    trace w' = trace w ++ evs ∧
    EvCall key (v, Some e) ∈ evs ∧
    (∀ k r, k ∈ post.*1 → EvCall k r ∉ evs) ∧
    (∀ k x, EvStore k x ∈ evs → data (cache w') !! k = Some x) ∧
    (∀ k, k ∈ pre.*1 → ∃ x, EvCall k (x, None) ∈ evs ∧ EvStore k x ∈ evs) ∧
    (∀ k, k ∉ pre.*1 → data (cache w') !! k = data (cache w) !! k) ∧
    UpdateFuncs (cache w') = UpdateFuncs (cache w).
Proof.
  intros Hrange Hrun Hf. unfold UpdateContent. rewrite Hrange.
  apply (update_each_stops pre key f post w w1 v e en'); [|done|done].
  rewrite <- Hrange. apply range_keys_NoDup.
Qed.

Lemma UpdateContent_first_failure_witness :
  range (last_key "c") (UpdateFuncs (cache w_abc))
  = [("a", always (VInt 1))] ++ ("b", failing "boom") :: [("c", always (VInt 3))] ∧
  update_each [("a", always (VInt 1))] w_abc
  = Returned None (world_of (update_each [("a", always (VInt 1))] w_abc)) ∧
  failing "boom"
    (data (cache (world_of (update_each [("a", always (VInt 1))] w_abc)))) tt
  = ((VNil, Some "boom"), tt) ∧
  ∃ w', UpdateContent (last_key "c") w_abc
        = Returned (Some "failed to update search cache for b. error: boom") w' ∧
        Get "a" (cache w') = (VInt 1, true) ∧
        Get "c" (cache w') = (VInt 0, true) ∧
        calls "c" (trace w') = 0.
Proof.
  split; [vm_compute; reflexivity|].
  split; [vm_compute; reflexivity|].
  split; [vm_compute; reflexivity|].
  destruct (UpdateContent_first_failure (last_key "c") w_abc
              (world_of (update_each [("a", always (VInt 1))] w_abc))
              [("a", always (VInt 1))] "b" (failing "boom")
              [("c", always (VInt 3))] VNil "boom" tt
              ltac:(vm_compute; reflexivity) ltac:(vm_compute; reflexivity)
              ltac:(vm_compute; reflexivity))
    as (w' & evs & Hrun & _).
  exists w'. split; [exact Hrun|].
  vm_compute in Hrun. injection Hrun as <-. by vm_compute.
Defined.

(** C3 (as amended). When one registered function always fails and the
    others always succeed, [UpdateContent] returns the error
    "failed to update search cache for <key>. error: <cause>" naming the
    failing key.  The other registered keys split into those visited before
    the failing key and those after it: each key visited before holds the
    value its function returned in this call; the function of a key that
    comes after is not invoked and that key keeps what it held. *)
Theorem UpdateContent_one_failing {Env : Type}
    (o : RangeOrder Env) (w : World Env) (key : string) (f : UpdateFunc Env) :
  UpdateFuncs (cache w) !! key = Some f →
  (∀ d en, is_Some (f d en).1.2) →
  (∀ k g, UpdateFuncs (cache w) !! k = Some g → k ≠ key →
          ∀ d en, (g d en).1.2 = None) →
  ∃ pre post cause w' evs,
    range o (UpdateFuncs (cache w)) = pre ++ (key, f) :: post ∧
    UpdateContent o w
    = Returned (Some ("failed to update search cache for " +:+ key
                      +:+ ". error: " +:+ cause)) w' ∧
    trace w' = trace w ++ evs ∧
    (∀ k, k ∈ dom (UpdateFuncs (cache w)) → k ≠ key →
          k ∈ pre.*1 ∨ k ∈ post.*1) ∧
    (∀ k, k ∈ pre.*1 →
          ∃ x, EvCall k (x, None) ∈ evs ∧ data (cache w') !! k = Some x) ∧
    (∀ k, k ∈ post.*1 →
          (∀ r, EvCall k r ∉ evs) ∧
          data (cache w') !! k = data (cache w) !! k).
Proof.
  intros Hkey Hfail Hok.
  assert ((key, f) ∈ range o (UpdateFuncs (cache w))) as Hin
    by by apply range_elem_of.
  apply list_elem_of_split in Hin as (pre & post & Hsplit).
  pose proof (range_keys_NoDup o (UpdateFuncs (cache w))) as Hnd.
  rewrite Hsplit in Hnd.
  pose proof Hnd as Hnd'.
  rewrite fmap_app, fmap_cons in Hnd'. simpl in Hnd'.
  apply NoDup_app in Hnd' as (Hpre & Hdisj & Hrest).
  apply NoDup_cons in Hrest as [Hkeypost Hpost].
  destruct (update_each_all_ok pre w) as [w1 Hrun].
  { intros k g Hkg. apply (Hok k g).
    - apply (range_elem_of o). rewrite Hsplit. apply elem_of_app. by left.
    - intros ->. apply (Hdisj key).
      + apply list_elem_of_fmap. by exists (key, g).
      + apply elem_of_cons. by left. }
  destruct (f (data (cache w1)) (env w1)) as [[v err] en'] eqn:Hf.
  pose proof (Hfail (data (cache w1)) (env w1)) as [cause Hcause].
  rewrite Hf in Hcause. simpl in Hcause. subst err.
  destruct (update_each_stops pre key f post w w1 v cause en' Hnd Hrun Hf)
    as (w' & evs & Hres & Htr & Hcall & Hnocall & Hst & Hset & Hout & Hu).
  exists pre, post, cause, w', evs.
  split; [done|]. split; [unfold UpdateContent; by rewrite Hsplit|].
  split; [done|]. split.
  { intros k Hk Hne. apply (range_key_elem_of o) in Hk. rewrite Hsplit in Hk.
    rewrite fmap_app, fmap_cons in Hk. simpl in Hk.
    apply elem_of_app in Hk as [Hk|Hk]; [by left|].
    apply elem_of_cons in Hk as [Hk|Hk]; [done | by right]. }
  split.
  { intros k Hk. destruct (Hset k Hk) as (x & Hc & Hs). exists x.
    split; [done | by apply Hst]. }
  intros k Hk. split; [intros r; by apply Hnocall|].
  apply Hout. intros Hk'. apply (Hdisj k Hk'). apply elem_of_cons. by right.
Qed.

Lemma UpdateContent_one_failing_witness :
  UpdateFuncs (cache w_abc) !! "b" = Some (failing "boom") ∧
  (∀ d en, is_Some (failing "boom" d en).1.2) ∧
  (∀ k g, UpdateFuncs (cache w_abc) !! k = Some g → k ≠ "b" →
          ∀ d en, (g d en).1.2 = None) ∧
  ∃ w', UpdateContent (last_key "c") w_abc
        = Returned (Some "failed to update search cache for b. error: boom") w' ∧
        Get "a" (cache w') = (VInt 1, true) ∧
        Get "c" (cache w') = (VInt 0, true).
Proof.
  assert (∀ k g, UpdateFuncs (cache w_abc) !! k = Some g → k ≠ "b" →
                 ∀ d en, (g d en).1.2 = None) as Hothers.
  { intros k g Hk Hne d en. cbn in Hk.
    apply lookup_insert_Some in Hk as [[<- <-]|[_ Hk]]; [done|].
    apply lookup_insert_Some in Hk as [[<- <-]|[_ Hk]]; [done|].
    apply lookup_insert_Some in Hk as [[<- <-]|[_ Hk]]; [done|].
    by rewrite lookup_empty in Hk. }
  split; [vm_compute; reflexivity|].
  split; [intros d en; simpl; eauto|].
  split; [exact Hothers|].
  destruct (UpdateContent_one_failing (last_key "c") w_abc "b" (failing "boom")
              ltac:(vm_compute; reflexivity)
              ltac:(intros d en; simpl; eauto) Hothers)
    as (pre & post & cause & w' & evs & _ & Hrun & _).
  vm_compute in Hrun. injection Hrun as _ <-.
  eexists. split; [vm_compute; reflexivity|]. by vm_compute.
Defined.

(** C3, as stated, fails: with "b" failing and the iteration visiting "b"
    first, the call names "b" in its error, and the functions of "a" and
    "c" are not invoked: "c" keeps its old value instead of the 3 that its
    function returns, and "a" is still absent. *)
Lemma UpdateContent_others_updated_counterexample :
  UpdateFuncs (cache w_abc) !! "a" = Some (always (VInt 1)) ∧
  UpdateFuncs (cache w_abc) !! "b" = Some (failing "boom") ∧
  UpdateFuncs (cache w_abc) !! "c" = Some (always (VInt 3)) ∧
  (range (first_key "b") (UpdateFuncs (cache w_abc))).*1 = ["b"; "c"; "a"] ∧
  ∃ w', UpdateContent (first_key "b") w_abc
        = Returned (Some "failed to update search cache for b. error: boom") w' ∧
        Get "c" (cache w') = (VInt 0, true) ∧
        Get "c" (cache w') ≠ (VInt 3, true) ∧
        Get "a" (cache w') = (VNil, false) ∧
        calls "a" (trace w') = 0 ∧
        calls "c" (trace w') = 0.
Proof.
  split; [vm_compute; reflexivity|].
  split; [vm_compute; reflexivity|].
  split; [vm_compute; reflexivity|].
  split; [vm_compute; reflexivity|].
  eexists. split; [vm_compute; reflexivity|]. by vm_compute.
Qed.

(** ** Construction *)

(** C6. [NewCache] fails with a configuration error and a nil cache when
    the interval is present and at most zero; with no interval, or a
    strictly positive one, it returns no error and a cache with an empty
    store, an empty registry, the given configuration and an unbuffered
    [close] channel. *)
Theorem NewCache_interval {Env : Type} (cfg : Config) :
  (∀ d, UpdateInterval cfg = Some d → (d ≤ 0)%Z →
        NewCache (Env:=Env) cfg
        = (None, Some "cache update interval duration is less than or equal to 0")) ∧
  (UpdateInterval cfg = None ∨ (∃ d, UpdateInterval cfg = Some d ∧ (0 < d)%Z) →
        NewCache (Env:=Env) cfg = (Some (mkCache ∅ cfg (make_chan 0) ∅), None)).
Proof.
  unfold NewCache, new_cache. split.
  - intros d -> Hd. by destruct (Z.leb_spec d 0); [|lia].
  - intros [->|(d & -> & Hd)]; [done|]. by destruct (Z.leb_spec d 0); [lia|].
Qed.

Lemma NewCache_interval_witness :
  NewCache (Env:=unit) (mkConfig (Some 0%Z))
  = (None, Some "cache update interval duration is less than or equal to 0") ∧
  NewCache (Env:=unit) (mkConfig (Some (-5)%Z))
  = (None, Some "cache update interval duration is less than or equal to 0") ∧
  NewCache (Env:=unit) every_ms = (Some (mkCache ∅ every_ms (make_chan 0) ∅), None) ∧
  NewCache (Env:=unit) one_shot = (Some (mkCache ∅ one_shot (make_chan 0) ∅), None).
Proof.
  split; [apply (proj1 (NewCache_interval (mkConfig (Some 0%Z))) 0%Z); [reflexivity | lia]|].
  split; [apply (proj1 (NewCache_interval (mkConfig (Some (-5)%Z))) (-5)%Z); [reflexivity | lia]|].
  split.
  - apply (proj2 (NewCache_interval every_ms)). right. exists 1000000%Z.
    split; [reflexivity | lia].
  - apply (proj2 (NewCache_interval one_shot)). by left.
Defined.

(** ** Starting *)

(** C1 (as amended). With no update interval, [StartUpdates] runs no update
    function, writes nothing to the store and starts no goroutine: it
    returns and leaves the engine, the host and the history as they were.
    The one refresh cycle of this mode is that of [StartAndManageUpdates]:
    when no function fails, it returns after one cycle in which every
    registered function was called once and its result stored, and it
    starts no goroutine either. *)
Theorem StartUpdates_no_interval {Env : Type} (w : World Env) :
  UpdateInterval (config (cache w)) = None →
  StartUpdates w = Returned tt w ∧
  ∀ o oc w1,
    UpdateContent o w = Returned None w1 →
    StartAndManageUpdates o oc w = Returned tt w1 ∧
    close (cache w1) = close (cache w) ∧
    ∃ evs,
      trace w1 = trace w ++ evs ∧
      (EvGo ∉ evs) ∧
      (∀ k, k ∈ dom (UpdateFuncs (cache w)) →
            calls k evs = 1 ∧
            ∃ x, EvCall k (x, None) ∈ evs ∧ Get k (cache w1) = (x, true)).
Proof.
  intros Hcfg. split; [apply StartUpdates_unchanged; by right|].
  intros o oc w1 Hrun.
  destruct (update_each_None _ _ _ (range_keys_NoDup o _) Hrun)
    as (evs & Htr & Hevs & Hst & Hin & _ & Hc & Hcl & _ & _ & Hcalls).
  split.
  { unfold StartAndManageUpdates. rewrite bind_unfold, Hrun.
    apply StartUpdates_unchanged. right. by rewrite Hc. }
  split; [done|]. exists evs. split; [done|]. split.
  { intros Hgo. destruct (Hevs _ Hgo) as (k & _ & [[r [=]]|[x [=]]]). }
  intros k Hk. apply (range_key_elem_of o) in Hk. split.
  - rewrite (Hcalls k). by rewrite decide_True.
  - destruct (Hin k Hk) as (x & Hcall & Hstore). exists x.
    split; [done|]. unfold Get. by rewrite (Hst k x Hstore).
Qed.

Lemma StartUpdates_no_interval_witness :
  UpdateInterval (config (cache w_one_shot)) = None ∧
  StartUpdates w_one_shot = Returned tt w_one_shot ∧
  ∃ w1, StartAndManageUpdates map_order map_order w_one_shot = Returned tt w1 ∧
        Get "a" (cache w1) = (VInt 1, true) ∧
        trace w1 = [EvCall "a" (VInt 1, None); EvStore "a" (VInt 1)].
Proof.
  split; [reflexivity|].
  destruct (StartUpdates_no_interval w_one_shot eq_refl) as [Hstart Hmanage].
  split; [exact Hstart|].
  destruct (Hmanage map_order map_order
              (world_of (UpdateContent map_order w_one_shot))
              ltac:(vm_compute; reflexivity)) as (Hrun & _).
  eexists. split; [exact Hrun|]. by vm_compute.
Defined.

(** C1, as stated, fails: in one-shot mode with "a" registered,
    [StartUpdates] returns without having called the function of "a" (the
    claim wants one call) and "a" is not in the store afterwards. *)
Lemma StartUpdates_refresh_once_counterexample :
  UpdateInterval (config (cache w_one_shot)) = None ∧
  UpdateFuncs (cache w_one_shot) !! "a" = Some (always (VInt 1)) ∧
  ∃ w', StartUpdates w_one_shot = Returned tt w' ∧
        calls "a" (trace w') = 0 ∧
        calls "a" (trace w') ≠ 1 ∧
        Get "a" (cache w') = (VNil, false).
Proof.
  split; [reflexivity|]. split; [vm_compute; reflexivity|].
  eexists. split; [vm_compute; reflexivity|]. by vm_compute.
Qed.

(** C9. With an empty registry [StartUpdates] returns at once, whatever the
    interval: no goroutine is started and the store, the registry and the
    history are unchanged. *)
Theorem StartUpdates_empty_registry {Env : Type} (w : World Env) :
  UpdateFuncs (cache w) = ∅ →
  StartUpdates w = Returned tt w.
Proof. intros H. apply StartUpdates_unchanged. by left. Qed.

Lemma StartUpdates_empty_registry_witness :
  UpdateFuncs (cache w_unregistered) = ∅ ∧
  UpdateInterval (config (cache w_unregistered)) = Some 1000000%Z ∧
  StartUpdates w_unregistered = Returned tt w_unregistered ∧
  Get "x" (cache (world_of (StartUpdates w_unregistered))) = (VString "kept", true).
Proof.
  split; [reflexivity|]. split; [reflexivity|].
  pose proof (StartUpdates_empty_registry w_unregistered eq_refl) as H.
  split; [exact H|]. rewrite H. by vm_compute.
Defined.

(** ** Closing *)

Lemma Get_Some {Env : Type} (c : Cache Env) (key : string) (v : Value) :
  data c !! key = Some v → Get key c = (v, true).
Proof. intros H. unfold Get. by rewrite H. Qed.

Lemma Get_eq {Env : Type} (c c' : Cache Env) (key : string) :
  data c' !! key = data c !! key → Get key c' = Get key c.
Proof. intros H. unfold Get. by rewrite H. Qed.

(** X24. On a cache with an update interval whose goroutine is waiting on
    [close], [Close] returns, every key of the registry then reads back as
    the empty string, and the registry is empty.  On a cache with no update
    interval [Close] returns and changes nothing. *)
Theorem Close_resets_running_engine {Env : Type}
    (o : RangeOrder Env) (w : World Env) :
  (∀ d, UpdateInterval (config (cache w)) = Some d →
        0 < recvq (close (cache w)) →
        ∃ w', Close o w = Returned tt w' ∧
              (∀ k, k ∈ dom (UpdateFuncs (cache w)) →
                    Get k (cache w') = (VString EmptyString, true)) ∧
              UpdateFuncs (cache w') = ∅) ∧
  (UpdateInterval (config (cache w)) = None → Close o w = Returned tt w).
Proof.
  split; [|apply Close_no_interval].
  intros d Hd Hq.
  destruct (Close_running o w d Hd Hq)
    as (w' & evs & Hrun & _ & _ & Hin & _ & Hu & _).
  exists w'. split; [done|]. split; [|done].
  intros k Hk. apply Get_Some. by apply Hin.
Qed.

Lemma Close_resets_running_engine_witness :
  UpdateInterval (config (cache w_running)) = Some 1000000%Z ∧
  0 < recvq (close (cache w_running)) ∧
  UpdateInterval (config (cache w_one_shot)) = None ∧
  (∃ w', Close map_order w_running = Returned tt w' ∧
         Get "int" (cache w') = (VString EmptyString, true) ∧
         Get "new" (cache w') = (VString EmptyString, true) ∧
         UpdateFuncs (cache w') = ∅) ∧
  Close map_order w_one_shot = Returned tt w_one_shot.
Proof.
  split; [reflexivity|]. split; [vm_compute; lia|]. split; [reflexivity|].
  split.
  - destruct (proj1 (Close_resets_running_engine map_order w_running)
                1000000%Z eq_refl ltac:(vm_compute; lia))
      as (w' & Hrun & Hkeys & Hu).
    exists w'. split; [exact Hrun|].
    split; [apply Hkeys; vm_compute; reflexivity|].
    split; [apply Hkeys; vm_compute; reflexivity | exact Hu].
  - apply (proj2 (Close_resets_running_engine map_order w_one_shot)). reflexivity.
Defined.

(** C4: the code at a failing input.  On a cache built with a positive
    interval on which [StartUpdates] was never called, [Close] does not get
    past its send on [close], whatever the iteration order: it does not
    return, the registered key "a" keeps its value 5 instead of being reset,
    and the registry is not emptied. *)
Theorem Close_on_idle_engine_resets_nothing :
  NewCache (Env:=unit) every_ms = (Some (new_cache every_ms), None) ∧
  UpdateInterval (config (cache w_idle)) = Some 1000000%Z ∧
  UpdateFuncs (cache w_idle) !! "a" = Some (always (VInt 1)) ∧
  (∀ o, Close o w_idle = Blocked w_idle) ∧
  Get "a" (cache w_idle) = (VInt 5, true) ∧
  Get "a" (cache w_idle) ≠ (VString EmptyString, true).
Proof.
  split; [reflexivity|]. split; [reflexivity|]. split; [vm_compute; reflexivity|].
  split; [|by vm_compute].
  intros o. by apply (Close_not_running o w_idle 1000000%Z).
Qed.

(** C10: the code at a failing input.  On an interval-configured cache
    whose goroutine has left on cancellation, [Close] does not get past its
    send on [close], whatever the iteration order, and stores nothing: the
    registered key "new", never written, is still not found instead of
    reading back as the empty string, and "int" keeps its 1. *)
Theorem Close_after_cancellation_stores_nothing :
  UpdateInterval (config (cache w_cancelled)) = Some 1000000%Z ∧
  UpdateFuncs (cache w_cancelled) !! "new" = Some (always (VFloat 0)) ∧
  UpdateFuncs (cache w_cancelled) !! "int" = Some next_int ∧
  (∀ o, Close o w_cancelled = Blocked w_cancelled) ∧
  Get "new" (cache w_cancelled) = (VNil, false) ∧
  Get "new" (cache w_cancelled) ≠ (VString EmptyString, true) ∧
  Get "int" (cache w_cancelled) = (VInt 1, true).
Proof.
  split; [reflexivity|]. split; [vm_compute; reflexivity|].
  split; [vm_compute; reflexivity|].
  split; [|by vm_compute].
  intros o. by apply (Close_not_running o w_cancelled 1000000%Z).
Qed.

(** C7: the code at the inputs of the claim.  On a cache that [NewCache]
    built with an interval, [Close] does not return when [StartUpdates] was
    never called; after a [Close] that stopped the only goroutine, a second
    [Close] does not return; and [Close] does not return once the goroutine
    has left on cancellation.  In each case the caller is parked on the
    send on [close]. *)
Theorem Close_blocks_without_goroutine :
  NewCache (Env:=unit) every_ms = (Some (new_cache every_ms), None) ∧
  (∀ o, Close o (fresh every_ms tt) = Blocked (fresh every_ms tt)) ∧
  (∀ o o', ∃ w1, Close o w_running = Returned tt w1 ∧ Close o' w1 = Blocked w1) ∧
  (∀ o, Close o w_cancelled = Blocked w_cancelled).
Proof.
  split; [reflexivity|].
  split; [intros o; by apply (Close_not_running o _ 1000000%Z)|].
  split; [|intros o; by apply (Close_not_running o _ 1000000%Z)].
  intros o o'.
  destruct (Close_running o w_running 1000000%Z eq_refl ltac:(vm_compute; lia))
    as (w1 & evs & Hrun & _ & _ & _ & _ & _ & Hc & Hq & Hcap & _).
  exists w1. split; [done|].
  apply (Close_not_running o' w1 1000000%Z); [by rewrite Hc | by rewrite Hcap | by rewrite Hq].
Qed.

(** C5: the code at a failing first load.  On a cache that [NewCache] built
    with an interval and whose only update function fails,
    [StartAndManageUpdates] calls the function, hands the error
    "failed to update search cache for k. error: boom" to the host, starts
    no goroutine, and is then parked in the send of [Close]: it does not
    return, the registry still holds "k" and nothing was reset. *)
Theorem StartAndManageUpdates_initial_failure_blocks :
  NewCache (Env:=unit) every_ms = (Some (new_cache every_ms), None) ∧
  UpdateFuncs (cache w_failing) !! "k" = Some (failing "boom") ∧
  ∀ o oc, ∃ w',
    StartAndManageUpdates o oc w_failing = Blocked w' ∧
    trace w' = [EvCall "k" (VNil, Some "boom");
                EvSendError "failed to update search cache for k. error: boom"] ∧
    UpdateFuncs (cache w') = UpdateFuncs (cache w_failing) ∧
    data (cache w') = data (cache w_failing) ∧
    recvq (close (cache w')) = 0.
Proof.
  split; [reflexivity|]. split; [vm_compute; reflexivity|].
  intros o oc.
  assert (UpdateContent o w_failing
          = Returned (Some "failed to update search cache for k. error: boom")
                     (world_of (UpdateContent map_order w_failing))) as Hrun.
  { unfold UpdateContent.
    change (UpdateFuncs (cache w_failing))
      with (<["k" := failing "boom"]> (∅ : gmap string (UpdateFunc unit))).
    rewrite !range_singleton. reflexivity. }
  eexists. split.
  - apply (StartAndManageUpdates_failure_idle o oc w_failing _ _ 1000000%Z
             (mkChan 1 ["failed to update search cache for k. error: boom"] 0)
             Hrun); reflexivity.
  - by vm_compute.
Qed.

(** ** Reading *)

(** C8. On every engine reached from [NewCache] by calls of its operations
    and steps of its goroutine, [Get] reports a key as not found exactly
    when the history holds no store under that key; stores are made by
    [Set], by the cycle of [UpdateContent] and by the reset of [Close].
    On the cache that [NewCache] returns, [Get] finds no key. *)
Theorem Get_not_found_iff_never_written {Env : Type} :
  (∀ (w : World Env) (key : string),
     Reachable w →
     ((Get key (cache w)).2 = false ↔ ∀ v, EvStore key v ∉ trace w)) ∧
  (∀ (cfg : Config) (c : Cache Env) (key : string),
     NewCache cfg = (Some c, None) → Get key c = (VNil, false)).
Proof.
  split.
  - intros w key Hw. pose proof (Reachable_history w Hw key) as Hinv.
    unfold written in Hinv. unfold Get.
    destruct (data (cache w) !! key) as [x|] eqn:Hx; simpl.
    + split; [done|]. intros Hno.
      destruct (proj1 Hinv) as [v Hv]; [by eexists|]. by destruct (Hno v).
    + split; [|done]. intros _ v Hv.
      destruct (proj2 Hinv) as [y Hy]; [by exists v | done].
  - intros cfg c key Hnew. unfold NewCache in Hnew.
    assert (c = new_cache cfg) as ->.
    { destruct (UpdateInterval cfg) as [d|]; [destruct (d <=? 0)%Z|];
        by simplify_eq. }
    unfold Get, new_cache. simpl. by rewrite lookup_empty.
Qed.

Lemma Get_not_found_iff_never_written_witness :
  Reachable w_running ∧
  NewCache (Env:=unit) every_ms = (Some (new_cache every_ms), None) ∧
  (Get "new" (cache w_running)).2 = false ∧
  (∀ v, EvStore "new" v ∉ trace w_running) ∧
  EvStore "int" (VInt 1) ∈ trace w_running ∧
  (Get "int" (cache w_running)).2 ≠ false ∧
  Get "int" (new_cache (Env:=unit) every_ms) = (VNil, false).
Proof.
  assert (Reachable w_running) as Hreach.
  { apply Reachable_run. by apply (Reachable_new every_ms). }
  assert (EvStore "int" (VInt 1) ∈ trace w_running) as Hint.
  { vm_compute. apply elem_of_cons. by left. }
  pose proof (@Get_not_found_iff_never_written unit) as [Hget Hnew].
  split; [exact Hreach|]. split; [reflexivity|].
  split; [vm_compute; reflexivity|].
  split; [apply (proj1 (Hget w_running "new" Hreach)); vm_compute; reflexivity|].
  split; [exact Hint|].
  split.
  - intros Hnot. exact (proj1 (Hget w_running "int" Hreach) Hnot _ Hint).
  - apply (Hnew every_ms). reflexivity.
Defined.

(** ** The scenarios of cache_test.go *)

(** TestUpdateContent: one cycle moves each value to its second state. *)
Example test_UpdateContent :
  ∃ w, UpdateContent map_order (getTestCache every_ms) = Returned None w ∧
       readings w = [(VString "test2", true); (VInt 2, true);
                     (VBool true, true); (VFloat f2_2, true)].
Proof. eexists. split; [vm_compute; reflexivity | by vm_compute]. Qed.

(** TestUpdateContent, "error_update_func". *)
Example test_UpdateContent_error :
  ∀ o, ∃ w,
    UpdateContent o
      (run [OpAddUpdateFunc "error_update_func" (failing "unexpected error")]
           (fresh every_ms tt))
    = Returned
        (Some "failed to update search cache for error_update_func. error: unexpected error")
        w.
Proof.
  intros o. eexists. unfold UpdateContent.
  change (UpdateFuncs (cache (run _ _)))
    with (<["error_update_func" := failing "unexpected error"]>
            (∅ : gmap string (UpdateFunc unit))).
  rewrite range_singleton. reflexivity.
Qed.

(** TestStartUpdates with an interval: nothing before the first tick, the
    second state after it, the third after the next, the empty string after
    [Close], and no change on later ticks. *)
Example test_StartUpdates_interval :
  let w0 := exec OpStartUpdates (getTestCache every_20ms) in
  let w1 := exec (OpTick map_order) w0 in
  let w2 := exec (OpTick map_order) w1 in
  let w3 := exec (OpClose map_order) w2 in
  let w4 := exec (OpTick map_order) w3 in
  readings w0 = [(VString "test", true); (VInt 1, true);
                 (VBool false, true); (VFloat f1_1, true)] ∧
  readings w1 = [(VString "test2", true); (VInt 2, true);
                 (VBool true, true); (VFloat f2_2, true)] ∧
  readings w2 = [(VString "test3", true); (VInt 3, true);
                 (VBool false, true); (VFloat f3_3, true)] ∧
  Close map_order w2 = Returned tt w3 ∧
  readings w3 = [(VString EmptyString, true); (VString EmptyString, true);
                 (VString EmptyString, true); (VString EmptyString, true)] ∧
  UpdateFuncs (cache w3) = ∅ ∧
  w4 = w3.
Proof. by vm_compute. Qed.

(** TestStartUpdates with no update functions, and with no interval: the
    values stay as they were. *)
Example test_StartUpdates_unchanged :
  UpdateFuncs (cache (testValues every_ms)) = ∅ ∧
  StartUpdates (testValues every_ms) = Returned tt (testValues every_ms) ∧
  exec (OpTick map_order) (testValues every_ms) = testValues every_ms ∧
  StartUpdates (getTestCache one_shot) = Returned tt (getTestCache one_shot) ∧
  exec (OpTick map_order) (getTestCache one_shot) = getTestCache one_shot ∧
  readings (testValues every_ms) = readings (getTestCache one_shot) ∧
  readings (getTestCache one_shot)
  = [(VString "test", true); (VInt 1, true);
     (VBool false, true); (VFloat f1_1, true)].
Proof. by vm_compute. Qed.

(** TestStartAndManageUpdates: the values are in their second state at
    once, with an interval (a goroutine then waits on [close]) and
    without one (no goroutine). *)
Example test_StartAndManageUpdates :
  ∃ w w',
    StartAndManageUpdates map_order map_order (getTestCache every_20ms)
    = Returned tt w ∧
    StartAndManageUpdates map_order map_order (getTestCache one_shot)
    = Returned tt w' ∧
    readings w = [(VString "test2", true); (VInt 2, true);
                  (VBool true, true); (VFloat f2_2, true)] ∧
    readings w' = readings w ∧
    recvq (close (cache w)) = 1 ∧
    recvq (close (cache w')) = 0.
Proof. eexists _, _. split; [vm_compute; reflexivity|]. by vm_compute. Qed.

(** A failed first load in one-shot mode: the error reaches the host's
    channel and the call returns. *)
Example StartAndManageUpdates_failure_one_shot_run :
  ∃ w, StartAndManageUpdates map_order map_order w_failing_one_shot
       = Returned tt w ∧
       buf (errorChannel w)
       = ["failed to update search cache for k. error: boom"] ∧
       recvq (close (cache w)) = 0.
Proof. eexists. split; [vm_compute; reflexivity | by vm_compute]. Qed.

(** Update functions that depend on the host: two cycles read the counter
    twice. *)
Example counter_cycles :
  let w1 := exec (OpUpdateContent map_order) w_counter in
  let w2 := exec (OpUpdateContent map_order) w1 in
  Get "n" (cache w1) = (VInt 0, true) ∧
  Get "n" (cache w2) = (VInt 1, true) ∧
  env w2 = 2 ∧
  calls "n" (trace w2) = 2.
Proof. by vm_compute. Qed.

(** ** Invariants of the engine *)

Section Invariants.

Context {Env : Type}.

Implicit Types (w : World Env) (o : RangeOrder Env) (f : UpdateFunc Env).
Implicit Types (entries : list (string * UpdateFunc Env)).

Lemma update_each_reported entries : ∀ w e w',
  update_each entries w = Returned (Some e) w' →
  reported_failure e (trace w').
Proof.
  induction entries as [|[k0 f0] rest IH]; intros w e w' Hrun; [done|].
  simpl in Hrun. rewrite bind_unfold in Hrun. unfold call in Hrun.
  destruct (f0 (data (cache w)) (env w)) as [[x err] en'].
  simpl in Hrun. destruct err as [err|].
  - injection Hrun as <- <-. exists k0, x, err. split; [|done].
    simpl. apply elem_of_app. right. by apply list_elem_of_singleton.
  - rewrite bind_unfold in Hrun. simpl in Hrun. by eapply IH.
Qed.

Section Steps.

Variable I : World Env → Prop.
Hypothesis HI : StepInvariant I.

Lemma update_each_invariant entries : ∀ w,
  I w → I (world_of (update_each entries w)).
Proof.
  induction entries as [|[k0 f0] rest IH]; intros w Hw; [done|].
  simpl. rewrite bind_unfold.
  pose proof (si_call I HI k0 f0 w Hw) as Hcall. unfold call in *.
  destruct (f0 (data (cache w)) (env w)) as [[x err] en'].
  simpl in *. destruct err as [err|]; [done|].
  rewrite bind_unfold. simpl. apply IH.
  apply (si_store I HI k0 x _ Hcall).
Qed.

Lemma reset_each_invariant entries : ∀ w,
  I w → I (world_of (reset_each entries w)).
Proof.
  induction entries as [|[k0 f0] rest IH]; intros w Hw; [done|].
  simpl. rewrite bind_unfold. simpl. apply IH.
  apply (si_store I HI k0 (VString EmptyString) _ Hw).
Qed.

Lemma Close_invariant o w : I w → I (world_of (Close o w)).
Proof.
  intros Hw. unfold Close.
  destruct (UpdateInterval (config (cache w))) as [d|] eqn:Hd; [|done].
  rewrite bind_unfold.
  pose proof (si_send_close I HI w Hw ltac:(by rewrite Hd)) as Hs.
  unfold send_close in *.
  destruct (chan_send () (close (cache w))) as [ch|]; simpl in *; [|done].
  rewrite bind_unfold. unfold reset_UpdateFuncs.
  match goal with |- context [reset_each ?l ?w0] =>
    pose proof (reset_each_invariant l w0 Hs) as Hr;
    destruct (reset_each_spec l w0) as (w' & evs & Hrun & _);
    rewrite Hrun in Hr |- *
  end.
  simpl in *. apply (si_clear I HI w' Hr).
Qed.

Lemma StartUpdates_invariant w : I w → I (world_of (StartUpdates w)).
Proof.
  intros Hw. unfold StartUpdates.
  destruct (size (UpdateFuncs (cache w)) =? 0); [done|].
  destruct (UpdateInterval (config (cache w))) as [d|] eqn:Hd; [|done].
  apply (si_go I HI w Hw). by rewrite Hd.
Qed.

Lemma StartAndManageUpdates_invariant o oc w :
  I w → I (world_of (StartAndManageUpdates o oc w)).
Proof.
  intros Hw. unfold StartAndManageUpdates. rewrite bind_unfold.
  pose proof (update_each_invariant (range o (UpdateFuncs (cache w))) w Hw) as Hu.
  unfold UpdateContent.
  destruct (update_each (range o (UpdateFuncs (cache w))) w)
    as [[e|] w'|w'] eqn:Hrun; simpl in Hu; [| |done].
  - rewrite bind_unfold.
    pose proof (si_send_error I HI e w' Hu (update_each_reported _ _ _ _ Hrun)) as Hs.
    destruct (send_error e w') as [[] w''|w'']; simpl in Hs; [|done].
    rewrite bind_unfold.
    pose proof (Close_invariant oc w'' Hs) as Hc.
    by destruct (Close oc w'') as [[] w3|w3].
  - by apply StartUpdates_invariant.
Qed.

Lemma ticker_fires_invariant o w : I w → I (ticker_fires o w).
Proof.
  intros Hw. unfold ticker_fires.
  destruct (recvq (close (cache w)) =? 0); [done|].
  pose proof (update_each_invariant (range o (UpdateFuncs (cache w))) w Hw) as Hu.
  unfold UpdateContent.
  destruct (update_each (range o (UpdateFuncs (cache w))) w)
    as [[e|] w'|w'] eqn:Hrun; simpl in Hu; [|done|done].
  pose proof (si_send_error I HI e w' Hu (update_each_reported _ _ _ _ Hrun)) as Hs.
  destruct (send_error e w') as [[] w''|w'']; simpl in Hs; [done|].
  by apply (si_unpark I HI).
Qed.

Lemma exec_invariant op w : I w → I (exec op w).
Proof.
  intros Hw. destruct op; simpl.
  - by apply (si_store I HI).
  - by apply (si_add I HI).
  - by apply update_each_invariant.
  - by apply Close_invariant.
  - by apply StartUpdates_invariant.
  - by apply StartAndManageUpdates_invariant.
  - by apply ticker_fires_invariant.
  - by apply (si_ctx_done I HI).
  - by apply (si_host_receives I HI).
Qed.

Lemma Reachable_invariant :
  (∀ cfg c e ch, NewCache cfg = (Some c, None) → I (boot c e ch)) →
  ∀ w, Reachable w → I w.
Proof.
  intros Hboot w Hw. induction Hw as [cfg c e ch Hnew|op w _ IH].
  - by eapply Hboot.
  - by apply exec_invariant.
Qed.

End Steps.

End Invariants.

(** *** Histories, one event later *)

Lemma last_store_snoc key tr ev :
  last_store key (tr ++ [ev])
  = match ev with
    | EvStore k v => if decide (k = key) then Some v else last_store key tr
    | _ => last_store key tr
    end.
Proof.
  induction tr as [|ev0 tr IH]; simpl.
  - destruct ev; try done; by case_decide.
  - rewrite IH. destruct ev; try done; by case_decide.
Qed.

Lemma count_events_snoc p tr ev :
  count_events p (tr ++ [ev]) = count_events p tr + (if p ev then 1 else 0).
Proof. induction tr as [|ev0 tr IH]; simpl; [lia|]. rewrite IH. lia. Qed.

Lemma elem_of_snoc (tr : list Event) ev ev' :
  ev' ∈ tr ++ [ev] ↔ ev' ∈ tr ∨ ev' = ev.
Proof. by rewrite elem_of_app, list_elem_of_singleton. Qed.

Lemma reported_failure_snoc e tr ev :
  reported_failure e tr → reported_failure e (tr ++ [ev]).
Proof.
  intros (key & v & cause & Hin & ->). exists key, v, cause.
  split; [|done]. apply elem_of_snoc. by left.
Qed.

(** Opens the elementary steps in a goal about [StepInvariant]. *)
Ltac open_steps :=
  constructor; intros;
  unfold call, send_close, send_error, data_Store, AddUpdateFunc,
    clear_UpdateFuncs, go_update_loop, ctx_done, host_receives, chan_send in *;
  repeat case_match; simpl in *.

(** *** The invariants *)

(** The store holds, under each key, the value of the latest store. *)
Lemma latest_store_invariant {Env : Type} :
  StepInvariant (λ w : World Env,
    ∀ key, data (cache w) !! key = last_store key (trace w)).
Proof.
  open_steps; try done. all: rewrite ?last_store_snoc; try done.
  case_decide as Hk; [subst; by rewrite lookup_insert_eq|].
  by rewrite lookup_insert_ne.
Qed.

(** [close] stays unbuffered and empty, and the goroutines waiting on it
    plus the signals taken from it never exceed the [go] statements. *)
Lemma close_channel_invariant {Env : Type} :
  StepInvariant (λ w : World Env,
    cap (close (cache w)) = 0 ∧
    buf (close (cache w)) = [] ∧
    recvq (close (cache w)) + count_events is_send_close (trace w)
    ≤ count_events is_go (trace w)).
Proof.
  open_steps; rewrite ?count_events_snoc; simpl;
    repeat match goal with
           | H : _ ∧ _ |- _ => destruct H
           | H : (_ <? _) = true |- _ => apply Nat.ltb_lt in H
           | H : (_ <? _) = false |- _ => apply Nat.ltb_ge in H
           end;
    simplify_eq; simpl in *;
    try (repeat split; simpl in *; try done; lia).
Qed.

(** A present interval is positive. *)
Lemma positive_interval_invariant {Env : Type} :
  StepInvariant (λ w : World Env,
    ∀ d, UpdateInterval (config (cache w)) = Some d → (0 < d)%Z).
Proof. open_steps; simplify_eq; simpl in *; eauto. Qed.

(** The configuration is the one given at construction. *)
Lemma config_invariant {Env : Type} (cfg : Config) :
  StepInvariant (λ w : World Env, config (cache w) = cfg).
Proof. open_steps; simplify_eq; simpl in *; eauto. Qed.

(** A key that is in the store stays in the store. *)
Lemma key_present_invariant {Env : Type} (key : string) :
  StepInvariant (λ w : World Env, is_Some (data (cache w) !! key)).
Proof.
  open_steps; try done.
  match goal with |- is_Some (<[?k:=_]> _ !! key) =>
    destruct (decide (k = key)) as [->|Hne];
      [by rewrite lookup_insert_eq | by rewrite lookup_insert_ne]
  end.
Qed.

(** With no interval there is no goroutine, no [go] statement and no send
    on [close]. *)
Lemma one_shot_invariant {Env : Type} :
  StepInvariant (λ w : World Env,
    UpdateInterval (config (cache w)) = None →
    recvq (close (cache w)) = 0 ∧
    (EvGo ∉ trace w) ∧ (EvSendClose ∉ trace w)).
Proof.
  open_steps; try done;
    try (match goal with
         | H : is_Some ?x, H' : ?x = None |- _ =>
             rewrite H' in H; by destruct H
         end);
    match goal with
    | H : ?P → _, H' : ?P |- _ => destruct (H H') as (Hq & Hgo & Hcl)
    end;
    rewrite ?elem_of_snoc; repeat split; try done; try lia;
    intros [?|?]; done.
Qed.

(** Every error sent to the host is the error of a failed call. *)
Lemma error_report_invariant {Env : Type} :
  StepInvariant (λ w : World Env,
    ∀ e, EvSendError e ∈ trace w → reported_failure e (trace w)).
Proof.
  open_steps; simplify_eq; simpl in *; try done;
    repeat match goal with
           | H : _ ∈ _ ++ [_] |- _ => apply elem_of_snoc in H as [H|H]
           end;
    simplify_eq; try (apply reported_failure_snoc); auto.
Qed.

Lemma run_invariant {Env : Type} (I : World Env → Prop) (ops : list (Op Env)) :
  StepInvariant I → ∀ w, I w → I (run ops w).
Proof.
  intros HI. induction ops as [|op ops IH]; intros w Hw; [done|].
  simpl. apply IH. by apply exec_invariant.
Qed.

(** ** Reading and writing *)

(** X1. [Set] then [Get] of the same key gives the value back as found;
    every other key reads as before, and the registry and the goroutines
    are untouched. *)
Theorem Set_then_Get {Env : Type} (w : World Env) (key : string) (v : Value) :
  ∃ w', Set_ key v w = Returned tt w' ∧
        Get key (cache w') = (v, true) ∧
        (∀ k, k ≠ key → Get k (cache w') = Get k (cache w)) ∧
        UpdateFuncs (cache w') = UpdateFuncs (cache w) ∧
        close (cache w') = close (cache w) ∧
        config (cache w') = config (cache w).
Proof.
  eexists. split; [reflexivity|]. simpl. unfold Get. simpl.
  split; [by rewrite lookup_insert_eq|].
  split; [|done]. intros k Hk. by rewrite lookup_insert_ne.
Qed.

(** X2. On every engine reached from [NewCache], [Get] returns the value of
    the most recent store under the key, whichever of [Set], a cycle or
    [Close] made it, and reports not found when there is none. *)
Theorem Get_returns_latest_store {Env : Type} (w : World Env) (key : string) :
  Reachable w →
  Get key (cache w)
  = match last_store key (trace w) with
    | Some v => (v, true)
    | None => (VNil, false)
    end.
Proof.
  intros Hw. unfold Get.
  rewrite (Reachable_invariant _ latest_store_invariant
             ltac:(intros cfg c e ch Hnew k; simpl;
                   unfold NewCache in Hnew;
                   destruct (UpdateInterval cfg) as [d|];
                     [destruct (d <=? 0)%Z|]; simplify_eq; done)
             w Hw key).
  done.
Qed.

Lemma Get_returns_latest_store_witness :
  let w := run [OpStartUpdates; OpTick map_order; OpSet "int" (VInt 9);
                OpTick map_order; OpClose map_order]
               (getTestCache every_20ms) in
  Reachable w ∧
  last_store "int" (trace w) = Some (VString EmptyString) ∧
  Get "int" (cache w) = (VString EmptyString, true) ∧
  Get "absent" (cache w) = (VNil, false).
Proof.
  assert (Reachable (run [OpStartUpdates; OpTick map_order; OpSet "int" (VInt 9);
                          OpTick map_order; OpClose map_order]
                         (getTestCache every_20ms))) as Hreach.
  { do 3 apply Reachable_run. by apply (Reachable_new every_20ms). }
  split; [exact Hreach|]. split; [vm_compute; reflexivity|].
  split.
  - rewrite (Get_returns_latest_store _ "int" Hreach). vm_compute; reflexivity.
  - rewrite (Get_returns_latest_store _ "absent" Hreach). vm_compute; reflexivity.
Defined.

(** X3. No history of operations removes a key from the store: a key that
    [Get] finds is found after any further calls, ticks, cancellation and
    [Close]. *)
Theorem stored_key_stays_found {Env : Type}
    (ops : list (Op Env)) (w : World Env) (key : string) :
  (Get key (cache w)).2 = true →
  (Get key (cache (run ops w))).2 = true.
Proof.
  unfold Get. intros Hfound.
  assert (is_Some (data (cache w) !! key)) as Hsome.
  { destruct (data (cache w) !! key); [by eexists | done]. }
  destruct (run_invariant _ ops (key_present_invariant key) w Hsome) as [x ->].
  done.
Qed.

Lemma stored_key_stays_found_witness :
  (Get "other" (cache w_running)).2 = true ∧
  (Get "other"
     (cache (run [OpTick map_order; OpClose map_order; OpCtxDone;
                  OpStartAndManageUpdates map_order map_order]
                 w_running))).2 = true.
Proof.
  split; [vm_compute; reflexivity|].
  apply (stored_key_stays_found _ w_running "other"). vm_compute; reflexivity.
Defined.

(** ** More about the refresh cycle *)

Lemma update_each_Some_inv {Env : Type}
    (entries : list (string * UpdateFunc Env)) : ∀ (w : World Env) e w',
  update_each entries w = Returned (Some e) w' →
  ∃ pre key f post w1 v cause en',
    entries = pre ++ (key, f) :: post ∧
    update_each pre w = Returned None w1 ∧
    f (data (cache w1)) (env w1) = ((v, Some cause), en') ∧
    e = update_error key cause.
Proof.
  induction entries as [|[k0 f0] rest IH]; intros w e w' Hrun; [done|].
  simpl in Hrun. rewrite bind_unfold in Hrun. unfold call in Hrun.
  destruct (f0 (data (cache w)) (env w)) as [[x err] en0] eqn:Hf.
  simpl in Hrun. destruct err as [err|].
  - injection Hrun as <- <-.
    by exists [], k0, f0, rest, w, x, err, en0.
  - rewrite bind_unfold in Hrun. simpl in Hrun.
    destruct (IH _ _ _ Hrun)
      as (pre & key & f & post & w1 & v & cause & en' & -> & Hpre & Hfail & ->).
    exists ((k0, f0) :: pre), key, f, post, w1, v, cause, en'.
    split; [done|]. split; [|done].
    simpl. rewrite bind_unfold. unfold call. rewrite Hf. simpl.
    by rewrite bind_unfold.
Qed.

Lemma update_each_None_values {Env : Type}
    (entries : list (string * UpdateFunc Env)) : ∀ (w w1 : World Env),
  NoDup entries.*1 →
  update_each entries w = Returned None w1 →
  ∀ k f, (k, f) ∈ entries →
    ∃ d en x en', f d en = ((x, None), en') ∧ data (cache w1) !! k = Some x.
Proof.
  induction entries as [|[k0 f0] rest IH]; intros w w1 Hnd Hrun k f Hin.
  { by apply elem_of_nil in Hin. }
  simpl in Hrun. rewrite bind_unfold in Hrun. unfold call in Hrun.
  destruct (f0 (data (cache w)) (env w)) as [[x err] en0] eqn:Hf.
  simpl in Hrun. destruct err as [err|]; [discriminate|].
  rewrite bind_unfold in Hrun. simpl in Hrun.
  apply NoDup_cons in Hnd as [Hk0 Hnd].
  apply elem_of_cons in Hin as [[= -> ->]|Hin]; [|by eapply IH].
  exists (data (cache w)), (env w), x, en0. split; [done|].
  destruct (update_each_None _ _ _ Hnd Hrun) as (_ & _ & _ & _ & _ & Hout & _).
  rewrite (Hout k0 Hk0). simpl. by rewrite lookup_insert_eq.
Qed.

(** X4. A cycle that returns no error consists of calls and stores for
    registered keys only.  In it the function of every registered key is
    called once, the call returns a value and no error, that value is
    stored and is what [Get] returns afterwards.  Keys that are not
    registered are neither called nor written, and the cycle changes neither
    the registry nor the configuration nor the channels. *)
Theorem UpdateContent_success {Env : Type}
    (o : RangeOrder Env) (w w1 : World Env) :
  UpdateContent o w = Returned None w1 →
  ∃ evs,
    trace w1 = trace w ++ evs ∧
    (∀ ev, ev ∈ evs →
       ∃ k, k ∈ dom (UpdateFuncs (cache w)) ∧
            ((∃ r, ev = EvCall k r) ∨ (∃ x, ev = EvStore k x))) ∧
    (∀ k, k ∈ dom (UpdateFuncs (cache w)) →
       calls k evs = 1 ∧
       ∃ x, EvCall k (x, None) ∈ evs ∧
            EvStore k x ∈ evs ∧
            Get k (cache w1) = (x, true) ∧
            ∃ f d en en',
              UpdateFuncs (cache w) !! k = Some f ∧ f d en = ((x, None), en')) ∧
    (∀ k, k ∉ dom (UpdateFuncs (cache w)) →
       calls k evs = 0 ∧ Get k (cache w1) = Get k (cache w)) ∧
    UpdateFuncs (cache w1) = UpdateFuncs (cache w) ∧
    config (cache w1) = config (cache w) ∧
    close (cache w1) = close (cache w) ∧
    errorChannel w1 = errorChannel w.
Proof.
  intros Hrun.
  destruct (update_each_None _ _ _ (range_keys_NoDup o _) Hrun)
    as (evs & Htr & Hevs & Hst & Hin & Hout & Hc & Hcl & Hu & He & Hcalls).
  pose proof (update_each_None_values _ _ _ (range_keys_NoDup o _) Hrun) as Hval.
  exists evs. split; [done|]. split; [|split; [|split; [|done]]].
  - intros ev Hev. destruct (Hevs ev Hev) as (k & Hk & Hkind).
    exists k. split; [by apply (range_key_elem_of o) | done].
  - intros k Hk. pose proof Hk as Hdom. apply (range_key_elem_of o) in Hk.
    rewrite (Hcalls k), decide_True by done. split; [done|].
    destruct (Hin k Hk) as (x & Hcall & Hstore). exists x.
    split; [done|]. split; [done|].
    pose proof (Hst k x Hstore) as Hx.
    split; [unfold Get; by rewrite Hx|].
    apply elem_of_dom in Hdom as [f Hf].
    destruct (Hval k f ltac:(by apply range_elem_of))
      as (d & en & y & en' & Hfy & Hy).
    rewrite Hx in Hy. injection Hy as <-. by exists f, d, en, en'.
  - intros k Hk. rewrite <- (range_key_elem_of o) in Hk.
    rewrite (Hcalls k), decide_False by done.
    split; [done|]. unfold Get. by rewrite (Hout k Hk).
Qed.

Lemma UpdateContent_success_witness :
  let w := exec (OpUpdateContent map_order) w_counter in
  let w1 := world_of (UpdateContent map_order w) in
  UpdateContent map_order w = Returned None w1 ∧
  Get "n" (cache w) = (VInt 0, true) ∧
  ∃ evs, trace w1 = trace w ++ evs ∧
         calls "n" evs = 1 ∧
         EvCall "n" (VInt 1, None) ∈ evs ∧
         Get "n" (cache w1) = (VInt 1, true).
Proof.
  assert (UpdateContent map_order (exec (OpUpdateContent map_order) w_counter)
          = Returned None
              (world_of (UpdateContent map_order
                           (exec (OpUpdateContent map_order) w_counter))))
    as Hrun by (vm_compute; reflexivity).
  cbv zeta. split; [exact Hrun|]. split; [vm_compute; reflexivity|].
  destruct (UpdateContent_success map_order _ _ Hrun)
    as (evs & Htr & _ & Hin & _).
  destruct (Hin "n" ltac:(vm_compute; reflexivity))
    as (Hcalls & x & Hcall & _ & Hget & _).
  assert (x = VInt 1) as ->.
  { assert (Get "n" (cache (world_of (UpdateContent map_order
                                        (exec (OpUpdateContent map_order) w_counter))))
            = (VInt 1, true)) as Hv by (vm_compute; reflexivity).
    rewrite Hv in Hget. by injection Hget as <-. }
  exists evs. split; [exact Htr|]. split; [exact Hcalls|].
  split; [exact Hcall | exact Hget].
Defined.

(** X5. Whenever a cycle returns an error, the error is
    "failed to update search cache for <key>. error: <cause>" for a
    registered key whose function has just returned [cause]: that call is
    the last thing the cycle did.  The failing key reads as it did before
    the cycle, and the registry is unchanged. *)
Theorem UpdateContent_error_names_registered_key {Env : Type}
    (o : RangeOrder Env) (w w' : World Env) (e : string) :
  UpdateContent o w = Returned (Some e) w' →
  ∃ key f v cause tr,
    UpdateFuncs (cache w) !! key = Some f ∧
    e = "failed to update search cache for " +:+ key +:+ ". error: " +:+ cause ∧
    trace w' = tr ++ [EvCall key (v, Some cause)] ∧
    Get key (cache w') = Get key (cache w) ∧
    UpdateFuncs (cache w') = UpdateFuncs (cache w).
Proof.
  intros Hrun. unfold UpdateContent in Hrun.
  destruct (update_each_Some_inv _ _ _ _ Hrun)
    as (pre & key & f & post & w1 & v & cause & en' & Hsplit & Hpre & Hfail & ->).
  pose proof (range_keys_NoDup o (UpdateFuncs (cache w))) as Hnd.
  rewrite Hsplit in Hnd, Hrun.
  rewrite (update_each_fail pre w w1 key f post v cause en' Hpre Hfail) in Hrun.
  injection Hrun as <-.
  destruct (update_each_stops pre key f post w w1 v cause en' Hnd Hpre Hfail)
    as (w'' & evs & Hres & _ & _ & _ & _ & _ & Hout & Hu).
  rewrite (update_each_fail pre w w1 key f post v cause en' Hpre Hfail) in Hres.
  injection Hres as <-.
  exists key, f, v, cause, (trace w1).
  split.
  { apply (range_elem_of o). rewrite Hsplit. apply elem_of_app. right.
    apply elem_of_cons. by left. }
  split; [done|]. split; [done|]. split; [|done].
  apply Get_eq. apply Hout.
  rewrite fmap_app, fmap_cons in Hnd. simpl in Hnd.
  apply NoDup_app in Hnd as (_ & Hdisj & _).
  intros Hk. apply (Hdisj key Hk). apply elem_of_cons. by left.
Qed.

Lemma UpdateContent_error_names_registered_key_witness :
  ∃ w', UpdateContent (last_key "c") w_abc
        = Returned (Some "failed to update search cache for b. error: boom") w' ∧
        UpdateFuncs (cache w_abc) !! "b" = Some (failing "boom") ∧
        Get "b" (cache w') = Get "b" (cache w_abc).
Proof.
  assert (UpdateContent (last_key "c") w_abc
          = Returned (Some "failed to update search cache for b. error: boom")
                     (world_of (UpdateContent (last_key "c") w_abc))) as Hrun
    by (vm_compute; reflexivity).
  eexists. split; [exact Hrun|].
  destruct (UpdateContent_error_names_registered_key _ _ _ _ Hrun)
    as (key & f & v & cause & tr & _ & _ & _ & _ & _).
  split; vm_compute; reflexivity.
Defined.

(** X6. When the result of every registered function is the same whatever
    the cache and the host hold, a cycle that succeeds in one iteration
    order succeeds in every other order and leaves the same store. *)
Theorem UpdateContent_order_irrelevant {Env : Type}
    (o o' : RangeOrder Env) (w w1 : World Env) :
  (∀ k f, UpdateFuncs (cache w) !! k = Some f →
          ∀ d en d' en', (f d en).1 = (f d' en').1) →
  UpdateContent o w = Returned None w1 →
  ∃ w1', UpdateContent o' w = Returned None w1' ∧
         data (cache w1') = data (cache w1).
Proof.
  intros Hind Hrun. unfold UpdateContent in *.
  pose proof (update_each_None_values _ _ _ (range_keys_NoDup o _) Hrun) as Hval.
  destruct (update_each_all_ok (range o' (UpdateFuncs (cache w))) w) as [w1' Hrun'].
  { intros k g Hkg d en. apply range_elem_of in Hkg.
    destruct (Hval k g ltac:(by apply range_elem_of))
      as (d0 & en0 & x & en1 & Hg & _).
    rewrite (Hind k g Hkg d en d0 en0), Hg. done. }
  exists w1'. split; [done|].
  pose proof (update_each_None_values _ _ _ (range_keys_NoDup o' _) Hrun') as Hval'.
  destruct (update_each_None _ _ _ (range_keys_NoDup o _) Hrun)
    as (_ & _ & _ & _ & _ & Hout & _).
  destruct (update_each_None _ _ _ (range_keys_NoDup o' _) Hrun')
    as (_ & _ & _ & _ & _ & Hout' & _).
  apply map_eq. intros k.
  destruct (UpdateFuncs (cache w) !! k) as [g|] eqn:Hk.
  - destruct (Hval k g ltac:(by apply range_elem_of))
      as (d0 & en0 & x & en1 & Hg & ->).
    destruct (Hval' k g ltac:(by apply range_elem_of))
      as (d0' & en0' & x' & en1' & Hg' & ->).
    pose proof (Hind k g Hk d0 en0 d0' en0') as Heq.
    rewrite Hg, Hg' in Heq. simpl in Heq. by injection Heq as ->.
  - assert (k ∉ dom (UpdateFuncs (cache w))) as Hnot
      by by apply not_elem_of_dom.
    rewrite (Hout' k), (Hout k); [done| |];
      by rewrite range_key_elem_of.
Qed.

Lemma UpdateContent_order_irrelevant_witness :
  (∀ k f, UpdateFuncs (cache w_two) !! k = Some f →
          ∀ d en d' en', (f d en).1 = (f d' en').1) ∧
  (range (first_key "a") (UpdateFuncs (cache w_two))).*1 = ["a"; "c"] ∧
  (range (first_key "c") (UpdateFuncs (cache w_two))).*1 = ["c"; "a"] ∧
  ∃ w1 w1',
    UpdateContent (first_key "a") w_two = Returned None w1 ∧
    UpdateContent (first_key "c") w_two = Returned None w1' ∧
    data (cache w1') = data (cache w1).
Proof.
  assert (∀ k f, UpdateFuncs (cache w_two) !! k = Some f →
                 ∀ d en d' en', (f d en).1 = (f d' en').1) as Hind.
  { intros k f Hk d en d' en'. cbn in Hk.
    apply lookup_insert_Some in Hk as [[_ <-]|[_ Hk]]; [done|].
    apply lookup_insert_Some in Hk as [[_ <-]|[_ Hk]]; [done|].
    by rewrite lookup_empty in Hk. }
  split; [exact Hind|].
  split; [vm_compute; reflexivity|]. split; [vm_compute; reflexivity|].
  assert (UpdateContent (first_key "a") w_two
          = Returned None (world_of (UpdateContent (first_key "a") w_two))) as Hrun
    by (vm_compute; reflexivity).
  destruct (UpdateContent_order_irrelevant (first_key "a") (first_key "c")
              w_two _ Hind Hrun) as (w1' & Hrun' & Hdata).
  eexists _, w1'. split; [exact Hrun|]. split; [exact Hrun' | exact Hdata].
Defined.

Lemma empty_registry_inert {Env : Type}
    (o oc : RangeOrder Env) (w : World Env) :
  UpdateFuncs (cache w) = ∅ →
  UpdateContent o w = Returned None w ∧
  StartAndManageUpdates o oc w = Returned tt w ∧
  ticker_fires o w = w.
Proof.
  intros Hempty.
  assert (UpdateContent o w = Returned None w) as Hrun.
  { unfold UpdateContent. by rewrite Hempty, range_empty. }
  split; [done|]. split.
  - unfold StartAndManageUpdates. rewrite bind_unfold, Hrun.
    apply StartUpdates_unchanged. by left.
  - unfold ticker_fires. rewrite Hrun.
    by destruct (recvq (close (cache w)) =? 0).
Qed.

(** X7. With an empty registry a cycle returns no error and changes
    nothing, [StartAndManageUpdates] returns without starting a goroutine,
    and a tick of a goroutine that is still there changes nothing either,
    whatever the interval. *)
Theorem empty_registry_changes_nothing {Env : Type}
    (o oc : RangeOrder Env) (w : World Env) :
  UpdateFuncs (cache w) = ∅ →
  UpdateContent o w = Returned None w ∧
  StartAndManageUpdates o oc w = Returned tt w ∧
  ticker_fires o w = w.
Proof. apply empty_registry_inert. Qed.

Lemma empty_registry_changes_nothing_witness :
  UpdateFuncs (cache w_unregistered) = ∅ ∧
  UpdateContent map_order w_unregistered = Returned None w_unregistered ∧
  StartAndManageUpdates map_order map_order w_unregistered
  = Returned tt w_unregistered ∧
  ticker_fires map_order w_unregistered = w_unregistered.
Proof.
  split; [reflexivity|].
  apply (empty_registry_changes_nothing map_order map_order w_unregistered).
  reflexivity.
Defined.

(** ** Starting, ticking and stopping *)





(** X10. A tick of a waiting goroutine runs one cycle.  When the cycle
    fails and the error channel takes the error, the error is sent, the
    goroutine goes on waiting, and nothing is reset: a failed cycle does
    not end the schedule. *)
Theorem ticker_fires_reports_and_continues {Env : Type}
    (o : RangeOrder Env) (w w1 : World Env) (e : string) (ch : Chan string) :
  0 < recvq (close (cache w)) →
  UpdateContent o w = Returned (Some e) w1 →
  chan_send e (errorChannel w) = Some ch →
  ticker_fires o w = emit (EvSendError e) (with_errorChannel ch w1) ∧
  recvq (close (cache (ticker_fires o w))) = recvq (close (cache w)) ∧
  UpdateFuncs (cache (ticker_fires o w)) = UpdateFuncs (cache w) ∧
  (∀ k, (Get k (cache w)).2 = true → (Get k (cache (ticker_fires o w))).2 = true).
Proof.
  intros Hq Hrun Hsend.
  destruct (update_each_frame _ _ _ _ Hrun) as (_ & Hcl & Hu & He).
  assert (ticker_fires o w = emit (EvSendError e) (with_errorChannel ch w1)) as Heq.
  { unfold ticker_fires.
    destruct (recvq (close (cache w)) =? 0) eqn:E; [apply Nat.eqb_eq in E; lia|].
    rewrite Hrun. unfold send_error. by rewrite He, Hsend. }
  split; [done|]. rewrite Heq. simpl. rewrite Hcl, Hu.
  split; [done|]. split; [done|].
  intros k Hk. unfold Get in *.
  assert (is_Some (data (cache w) !! k)) as Hsome.
  { destruct (data (cache w) !! k); [by eexists | done]. }
  pose proof (exec_invariant _ (key_present_invariant k)
                (OpUpdateContent o) w Hsome) as Hkeep.
  simpl in Hkeep. rewrite Hrun in Hkeep. simpl in Hkeep.
  destruct Hkeep as [x Hx]. by rewrite Hx.
Qed.

Lemma ticker_fires_reports_and_continues_witness :
  0 < recvq (close (cache w_abc_running)) ∧
  chan_send "failed to update search cache for b. error: boom"
    (errorChannel w_abc_running)
  = Some (mkChan 1 ["failed to update search cache for b. error: boom"] 0) ∧
  let w' := ticker_fires (last_key "c") w_abc_running in
  buf (errorChannel w')
  = ["failed to update search cache for b. error: boom"] ∧
  recvq (close (cache w')) = 1 ∧
  Get "a" (cache w') = (VInt 1, true) ∧
  Get "c" (cache w') = (VInt 0, true).
Proof.
  split; [vm_compute; lia|]. split; [reflexivity|].
  destruct (ticker_fires_reports_and_continues (last_key "c") w_abc_running
              (world_of (UpdateContent (last_key "c") w_abc_running))
              "failed to update search cache for b. error: boom"
              (mkChan 1 ["failed to update search cache for b. error: boom"] 0)
              ltac:(vm_compute; lia) ltac:(vm_compute; reflexivity) eq_refl)
    as (Heq & _).
  cbv zeta. rewrite Heq. by vm_compute.
Defined.

(** X11. When the cycle of a tick fails and the error channel cannot take
    the error (its buffer is full and no host goroutine receives), the
    goroutine stays in that send: the error is not delivered and one
    goroutine fewer waits on [close].  When it was the only one, a [Close]
    on the unbuffered [close] then finds no receiver. *)
Theorem ticker_fires_stalls_on_full_error_channel {Env : Type}
    (o oc : RangeOrder Env) (w w1 : World Env) (e : string) (d : Z) :
  UpdateInterval (config (cache w)) = Some d →
  cap (close (cache w)) = 0 →
  recvq (close (cache w)) = 1 →
  UpdateContent o w = Returned (Some e) w1 →
  chan_send e (errorChannel w) = None →
  errorChannel (ticker_fires o w) = errorChannel w ∧
  trace (ticker_fires o w) = trace w1 ∧
  recvq (close (cache (ticker_fires o w))) = 0 ∧
  Close oc (ticker_fires o w) = Blocked (ticker_fires o w).
Proof.
  intros Hd Hcap Hq Hrun Hsend.
  destruct (update_each_frame _ _ _ _ Hrun) as (Hc & Hcl & Hu & He).
  assert (ticker_fires o w
          = with_cache (with_close (chan_unpark (close (cache w1))) (cache w1)) w1)
    as Heq.
  { unfold ticker_fires. rewrite Hq. simpl. rewrite Hrun.
    unfold send_error. by rewrite He, Hsend. }
  rewrite Heq.
  split; [done|]. split; [done|].
  split; [simpl; by rewrite Hcl, Hq|].
  apply (Close_not_running oc _ d); simpl;
    [by rewrite Hc | by rewrite Hcl | by rewrite Hcl, Hq].
Qed.

Lemma ticker_fires_stalls_on_full_error_channel_witness :
  UpdateInterval (config (cache w_abc_reported)) = Some 1000000%Z ∧
  cap (close (cache w_abc_reported)) = 0 ∧
  recvq (close (cache w_abc_reported)) = 1 ∧
  buf (errorChannel w_abc_reported)
  = ["failed to update search cache for b. error: boom"] ∧
  chan_send "failed to update search cache for b. error: boom"
    (errorChannel w_abc_reported) = None ∧
  let w' := ticker_fires (last_key "c") w_abc_reported in
  recvq (close (cache w')) = 0 ∧
  buf (errorChannel w')
  = ["failed to update search cache for b. error: boom"] ∧
  Close map_order w' = Blocked w'.
Proof.
  split; [vm_compute; reflexivity|]. split; [vm_compute; reflexivity|].
  split; [vm_compute; reflexivity|].
  split; [vm_compute; reflexivity|]. split; [vm_compute; reflexivity|].
  destruct (ticker_fires_stalls_on_full_error_channel
              (last_key "c") map_order w_abc_reported
              (world_of (UpdateContent (last_key "c") w_abc_reported))
              "failed to update search cache for b. error: boom" 1000000%Z
              ltac:(vm_compute; reflexivity) ltac:(vm_compute; reflexivity)
              ltac:(vm_compute; reflexivity)
              ltac:(vm_compute; reflexivity) ltac:(vm_compute; reflexivity))
    as (Herr & _ & Hq & Hclose).
  cbv zeta. split; [exact Hq|]. split; [|exact Hclose].
  rewrite Herr. vm_compute; reflexivity.
Defined.



Lemma Close_returned_registry_empty {Env : Type}
    (o : RangeOrder Env) (w w' : World Env) (d : Z) :
  UpdateInterval (config (cache w)) = Some d →
  Close o w = Returned tt w' →
  UpdateFuncs (cache w') = ∅ ∧ config (cache w') = config (cache w).
Proof.
  intros Hd Hrun. unfold Close in Hrun. rewrite Hd, bind_unfold in Hrun.
  unfold send_close in Hrun.
  destruct (chan_send () (close (cache w))) as [ch|]; [|done].
  rewrite bind_unfold in Hrun. unfold reset_UpdateFuncs in Hrun.
  match type of Hrun with context [reset_each ?l ?w0] =>
    destruct (reset_each_spec l w0)
      as (w1 & evs & Hreset & _ & _ & _ & _ & Hc & _);
    rewrite Hreset in Hrun
  end.
  injection Hrun as <-. simpl. split; [done|]. by rewrite Hc.
Qed.

(** X13. Once [Close] has returned on an engine with an interval, nothing
    refreshes it any more: a cycle returns no error and changes nothing,
    [StartUpdates] and [StartAndManageUpdates] start no goroutine, and a
    tick of a goroutine that is still waiting changes nothing, until a
    function is registered again. *)
Theorem closed_engine_is_inert {Env : Type}
    (o : RangeOrder Env) (w w' : World Env) (d : Z) :
  UpdateInterval (config (cache w)) = Some d →
  Close o w = Returned tt w' →
  (∀ o1, UpdateContent o1 w' = Returned None w') ∧
  StartUpdates w' = Returned tt w' ∧
  (∀ o1 o2, StartAndManageUpdates o1 o2 w' = Returned tt w') ∧
  (∀ o1, ticker_fires o1 w' = w').
Proof.
  intros Hd Hrun.
  destruct (Close_returned_registry_empty o w w' d Hd Hrun) as [Hempty _].
  split; [intros o1; by apply (empty_registry_inert o1 o1)|].
  split; [apply StartUpdates_unchanged; by left|].
  split; [intros o1 o2; by apply (empty_registry_inert o1 o2)|].
  intros o1. by apply (empty_registry_inert o1 o1).
Qed.

Lemma closed_engine_is_inert_witness :
  let w2 := exec OpStartUpdates w_running in
  UpdateInterval (config (cache w2)) = Some 1000000%Z ∧
  recvq (close (cache w2)) = 2 ∧
  ∃ w', Close map_order w2 = Returned tt w' ∧
        recvq (close (cache w')) = 1 ∧
        ticker_fires map_order w' = w' ∧
        StartUpdates w' = Returned tt w'.
Proof.
  split; [reflexivity|]. split; [vm_compute; reflexivity|].
  destruct (closed_engine_is_inert map_order (exec OpStartUpdates w_running)
              (world_of (Close map_order (exec OpStartUpdates w_running)))
              1000000%Z eq_refl ltac:(vm_compute; reflexivity))
    as (_ & Hstart & _ & Htick).
  eexists. split; [vm_compute; reflexivity|].
  split; [vm_compute; reflexivity|]. split; [apply Htick | exact Hstart].
Defined.

Lemma Cache_eq {Env : Type} (c c' : Cache Env) :
  data c = data c' → config c = config c' → close c = close c' →
  UpdateFuncs c = UpdateFuncs c' → c = c'.
Proof. destruct c, c'. simpl. by intros -> -> -> ->. Qed.

(** X14. The iteration order of [Close] does not matter: when [Close]
    returns for one order it returns for every order, with the same store,
    registry, configuration, channels and host. *)
Theorem Close_order_irrelevant {Env : Type}
    (o o' : RangeOrder Env) (w w1 : World Env) :
  Close o w = Returned tt w1 →
  ∃ w2, Close o' w = Returned tt w2 ∧
        cache w2 = cache w1 ∧
        env w2 = env w1 ∧
        errorChannel w2 = errorChannel w1.
Proof.
  intros Hrun. unfold Close in *.
  destruct (UpdateInterval (config (cache w))) as [d|]; [|by exists w1].
  rewrite bind_unfold in *. unfold send_close in *.
  destruct (chan_send () (close (cache w))) as [ch|]; [|done].
  rewrite bind_unfold in *. unfold reset_UpdateFuncs in *.
  match type of Hrun with context [reset_each (range o ?m) ?w0] =>
    destruct (reset_each_spec (range o m) w0)
      as (r1 & evs1 & Hr1 & _ & _ & Hin1 & Hout1 & Hc1 & Hcl1 & Hu1 & He1 & Hen1);
    destruct (reset_each_spec (range o' m) w0)
      as (r2 & evs2 & Hr2 & _ & _ & Hin2 & Hout2 & Hc2 & Hcl2 & Hu2 & He2 & Hen2)
  end.
  rewrite Hr1 in Hrun. rewrite Hr2. injection Hrun as <-.
  eexists. split; [reflexivity|]. simpl.
  split; [|split; congruence].
  apply Cache_eq; simpl; try congruence.
  apply map_eq. intros k.
  destruct (decide (k ∈ dom (UpdateFuncs (cache w)))) as [Hk|Hk].
  - rewrite Hin1, Hin2; [done| |]; by apply range_key_elem_of.
  - rewrite Hout1, Hout2; [done| |]; by rewrite range_key_elem_of.
Qed.

Lemma Close_order_irrelevant_witness :
  (range (first_key "new") (UpdateFuncs (cache w_running))).*1 = ["new"; "int"] ∧
  (range (last_key "new") (UpdateFuncs (cache w_running))).*1 = ["int"; "new"] ∧
  ∃ w1 w2,
    Close (first_key "new") w_running = Returned tt w1 ∧
    Close (last_key "new") w_running = Returned tt w2 ∧
    cache w2 = cache w1.
Proof.
  split; [vm_compute; reflexivity|]. split; [vm_compute; reflexivity|].
  destruct (Close_order_irrelevant (first_key "new") (last_key "new") w_running
              (world_of (Close (first_key "new") w_running))
              ltac:(vm_compute; reflexivity)) as (w2 & Hrun & Hcache & _).
  eexists _, w2. split; [vm_compute; reflexivity|].
  split; [exact Hrun | exact Hcache].
Defined.

Lemma NewCache_Some {Env : Type} (cfg : Config) (c : Cache Env) :
  NewCache cfg = (Some c, None) →
  c = new_cache cfg ∧ ∀ d, UpdateInterval cfg = Some d → (0 < d)%Z.
Proof.
  unfold NewCache. intros Hnew.
  destruct (UpdateInterval cfg) as [d|]; [|by simplify_eq].
  destruct (Z.leb_spec d 0) as [Hle|Hlt]; simplify_eq.
  split; [done|]. by intros d' [= <-].
Qed.

Lemma Reachable_close_channel {Env : Type} (w : World Env) :
  Reachable w →
  cap (close (cache w)) = 0 ∧
  buf (close (cache w)) = [] ∧
  recvq (close (cache w)) + count_events is_send_close (trace w)
  ≤ count_events is_go (trace w).
Proof.
  apply (Reachable_invariant _ close_channel_invariant).
  intros cfg c e ch Hnew. apply NewCache_Some in Hnew as [-> _]. simpl.
  repeat split; lia.
Qed.



(** X16. On every engine reached from [NewCache], the goroutines waiting on
    [close] plus the stop signals that [Close] has handed over never exceed
    the goroutines that [StartUpdates] has started: each returning [Close]
    on an interval engine stops one goroutine of its own. *)
Theorem Close_signals_bounded_by_goroutines {Env : Type} (w : World Env) :
  Reachable w →
  recvq (close (cache w)) + count_events is_send_close (trace w)
  ≤ count_events is_go (trace w).
Proof. intros Hw. by destruct (Reachable_close_channel w Hw) as (_ & _ & H). Qed.

Lemma Close_signals_bounded_by_goroutines_witness :
  let w := run [OpStartUpdates; OpClose map_order; OpClose map_order;
                OpAddUpdateFunc "a" (always VNil); OpStartUpdates; OpCtxDone]
               w_running in
  Reachable w ∧
  count_events is_go (trace w) = 3 ∧
  count_events is_send_close (trace w) = 2 ∧
  recvq (close (cache w)) = 0.
Proof.
  assert (Reachable (run [OpStartUpdates; OpClose map_order; OpClose map_order;
                          OpAddUpdateFunc "a" (always VNil); OpStartUpdates;
                          OpCtxDone] w_running)) as Hr.
  { do 2 apply Reachable_run. by apply (Reachable_new every_ms). }
  pose proof (Close_signals_bounded_by_goroutines _ Hr) as Hle.
  cbv zeta. split; [exact Hr|]. by vm_compute.
Defined.

(** X17. No operation changes the configuration: after any history the
    engine has the configuration that [NewCache] was given, and its
    interval, when there is one, is positive. *)
Theorem configuration_never_changes {Env : Type}
    (cfg : Config) (c : Cache Env) (e : Env) (ch : Chan string)
    (ops : list (Op Env)) :
  NewCache cfg = (Some c, None) →
  config (cache (run ops (boot c e ch))) = cfg ∧
  ∀ d, UpdateInterval (config (cache (run ops (boot c e ch)))) = Some d →
       (0 < d)%Z.
Proof.
  intros Hnew. apply NewCache_Some in Hnew as [-> Hpos].
  assert (config (cache (run ops (boot (new_cache cfg) e ch))) = cfg) as Hcfg.
  { by apply (run_invariant _ ops (config_invariant cfg)). }
  split; [done|]. rewrite Hcfg. apply Hpos.
Qed.

Lemma configuration_never_changes_witness :
  NewCache (Env:=unit) every_ms = (Some (new_cache every_ms), None) ∧
  config (cache (run [OpAddUpdateFunc "k" (failing "boom");
                      OpStartAndManageUpdates map_order map_order;
                      OpStartUpdates; OpClose map_order; OpCtxDone]
                     (boot (new_cache every_ms) tt (make_chan 1))))
  = every_ms.
Proof.
  split; [reflexivity|].
  apply (configuration_never_changes every_ms (new_cache every_ms) tt (make_chan 1)).
  reflexivity.
Defined.

(** X18. An engine built with no interval never has a goroutine: after any
    history no [go] statement and no send on [close] has been executed,
    nothing waits on [close], and a tick changes nothing. *)
Theorem one_shot_engine_never_has_goroutine {Env : Type}
    (o : RangeOrder Env) (w : World Env) :
  Reachable w →
  UpdateInterval (config (cache w)) = None →
  recvq (close (cache w)) = 0 ∧
  (EvGo ∉ trace w) ∧
  (EvSendClose ∉ trace w) ∧
  ticker_fires o w = w.
Proof.
  intros Hw Hcfg.
  assert (UpdateInterval (config (cache w)) = None →
          recvq (close (cache w)) = 0 ∧
          (EvGo ∉ trace w) ∧ (EvSendClose ∉ trace w)) as Hinv.
  { clear Hcfg. revert w Hw. apply (Reachable_invariant _ one_shot_invariant).
    intros cfg c e ch Hnew _. apply NewCache_Some in Hnew as [-> _]. simpl.
    split; [done|]. split; by intros ?%elem_of_nil. }
  destruct (Hinv Hcfg) as (Hq & Hgo & Hcl).
  repeat split; try done. by apply ticker_fires_idle.
Qed.

Lemma one_shot_engine_never_has_goroutine_witness :
  let w := run [OpStartUpdates; OpStartAndManageUpdates map_order map_order;
                OpClose map_order; OpStartUpdates; OpTick map_order]
               (getTestCache one_shot) in
  Reachable w ∧
  UpdateInterval (config (cache w)) = None ∧
  recvq (close (cache w)) = 0 ∧
  Get "int" (cache w) = (VInt 2, true).
Proof.
  assert (Reachable (run [OpStartUpdates;
                          OpStartAndManageUpdates map_order map_order;
                          OpClose map_order; OpStartUpdates; OpTick map_order]
                         (getTestCache one_shot))) as Hr.
  { do 3 apply Reachable_run. by apply (Reachable_new one_shot). }
  cbv zeta. split; [exact Hr|]. split; [vm_compute; reflexivity|].
  split; [|vm_compute; reflexivity].
  apply (one_shot_engine_never_has_goroutine map_order _ Hr).
  vm_compute; reflexivity.
Defined.

(** X19. Every error that the engine has sent on the host's error channel
    is "failed to update search cache for <key>. error: <cause>" for a call
    in the history that returned the error [cause]: the engine reports
    failed update functions and nothing else. *)
Theorem sent_errors_are_update_failures {Env : Type} (w : World Env) (e : string) :
  Reachable w →
  EvSendError e ∈ trace w →
  ∃ key v cause,
    EvCall key (v, Some cause) ∈ trace w ∧
    e = "failed to update search cache for " +:+ key +:+ ". error: " +:+ cause.
Proof.
  intros Hw. revert e. revert w Hw.
  apply (Reachable_invariant
           (λ w, ∀ e, EvSendError e ∈ trace w → reported_failure e (trace w))
           error_report_invariant).
  intros cfg c en ch _ e0 He0. by apply elem_of_nil in He0.
Qed.

Lemma sent_errors_are_update_failures_witness :
  Reachable w_abc_reported ∧
  EvSendError "failed to update search cache for b. error: boom"
    ∈ trace w_abc_reported ∧
  ∃ key v cause,
    EvCall key (v, Some cause) ∈ trace w_abc_reported ∧
    "failed to update search cache for b. error: boom"
    = "failed to update search cache for " +:+ key +:+ ". error: " +:+ cause.
Proof.
  assert (Reachable w_abc_reported) as Hr.
  { do 2 constructor. apply Reachable_run. by apply (Reachable_new every_ms). }
  assert (EvSendError "failed to update search cache for b. error: boom"
            ∈ trace w_abc_reported) as He.
  { apply (bool_decide_unpack _). vm_compute. exact I. }
  split; [exact Hr|]. split; [exact He|].
  exact (sent_errors_are_update_failures _ _ Hr He).
Defined.

Lemma Close_blocked_same {Env : Type} (o : RangeOrder Env) (w w' : World Env) :
  Close o w = Blocked w' → w' = w.
Proof.
  unfold Close. destruct (UpdateInterval (config (cache w))); [|done].
  rewrite bind_unfold. unfold send_close.
  destruct (chan_send () (close (cache w))) as [ch|]; [|by intros [= <-]].
  rewrite bind_unfold. unfold reset_UpdateFuncs.
  match goal with |- context [reset_each ?l ?w0] =>
    destruct (reset_each_spec l w0) as (w1 & evs & -> & _)
  end.
  done.
Qed.

Lemma Close_registry {Env : Type} (o : RangeOrder Env) (w : World Env) :
  UpdateFuncs (cache (world_of (Close o w))) = UpdateFuncs (cache w) ∨
  UpdateFuncs (cache (world_of (Close o w))) = ∅.
Proof.
  destruct (Close o w) as [[] w'|w'] eqn:Hrun; simpl.
  - destruct (UpdateInterval (config (cache w))) as [d|] eqn:Hd.
    + right. by destruct (Close_returned_registry_empty o w w' d Hd Hrun).
    + left. rewrite (Close_no_interval o w Hd) in Hrun. by injection Hrun as <-.
  - left. by rewrite (Close_blocked_same o w w' Hrun).
Qed.

Lemma StartUpdates_registry {Env : Type} (w : World Env) :
  UpdateFuncs (cache (world_of (StartUpdates w))) = UpdateFuncs (cache w).
Proof.
  unfold StartUpdates. destruct (size (UpdateFuncs (cache w)) =? 0); [done|].
  by destruct (UpdateInterval (config (cache w))).
Qed.

(** X20. The registry changes in two ways only: [AddUpdateFunc] puts its
    function under its key, replacing the one that was there, and a [Close]
    that gets past its send (called directly or by [StartAndManageUpdates]
    after a failed first cycle) empties it.  [Set], a cycle, [StartUpdates],
    ticks, cancellation and the host's receive leave it as it is. *)
Theorem registry_changes_only_by_AddUpdateFunc_and_Close {Env : Type}
    (op : Op Env) (w : World Env) :
  match op with
  | OpAddUpdateFunc key f =>
      UpdateFuncs (cache (exec op w)) = <[key := f]> (UpdateFuncs (cache w))
  | OpClose _ | OpStartAndManageUpdates _ _ =>
      UpdateFuncs (cache (exec op w)) = UpdateFuncs (cache w) ∨
      UpdateFuncs (cache (exec op w)) = ∅
  | _ => UpdateFuncs (cache (exec op w)) = UpdateFuncs (cache w)
  end.
Proof.
  destruct op as [key v|key f|o|o| |o oc|o| |]; simpl; try done.
  - unfold UpdateContent.
    destruct (update_each_returns (range o (UpdateFuncs (cache w))) w)
      as (r & w' & Hrun).
    rewrite Hrun. simpl. by destruct (update_each_frame _ _ _ _ Hrun) as (_ & _ & ? & _).
  - apply Close_registry.
  - apply StartUpdates_registry.
  - unfold StartAndManageUpdates, UpdateContent. rewrite bind_unfold.
    destruct (update_each_returns (range o (UpdateFuncs (cache w))) w)
      as (r & w1 & Hrun).
    rewrite Hrun. destruct (update_each_frame _ _ _ _ Hrun) as (_ & _ & Hu & _).
    destruct r as [e|].
    + rewrite bind_unfold. unfold send_error.
      destruct (chan_send e (errorChannel w1)) as [ch|]; simpl; [|by left].
      rewrite bind_unfold.
      match goal with |- context [Close oc ?w2] =>
        pose proof (Close_registry oc w2) as Hc;
        destruct (Close oc w2) as [[] w3|w3]
      end; simpl in *; rewrite <- Hu; done.
    + left. by rewrite StartUpdates_registry.
  - unfold ticker_fires.
    destruct (recvq (close (cache w)) =? 0); [done|].
    unfold UpdateContent.
    destruct (update_each_returns (range o (UpdateFuncs (cache w))) w)
      as (r & w1 & Hrun).
    rewrite Hrun. destruct (update_each_frame _ _ _ _ Hrun) as (_ & _ & Hu & _).
    destruct r as [e|]; [|done]. unfold send_error.
    by destruct (chan_send e (errorChannel w1)).
Qed.

(** ** A failed first load *)

(** X21. In one-shot mode, when the first cycle of [StartAndManageUpdates]
    fails and the error channel takes the error, the call sends the error
    and returns: no goroutine is started, the registry is kept and nothing
    is reset; the values stored before the failing function are kept. *)
Theorem StartAndManageUpdates_failure_in_one_shot_mode {Env : Type}
    (o oc : RangeOrder Env) (w w1 : World Env) (e : string) (ch : Chan string) :
  UpdateInterval (config (cache w)) = None →
  UpdateContent o w = Returned (Some e) w1 →
  chan_send e (errorChannel w) = Some ch →
  ∃ w',
    StartAndManageUpdates o oc w = Returned tt w' ∧
    trace w' = trace w1 ++ [EvSendError e] ∧
    errorChannel w' = ch ∧
    cache w' = cache w1 ∧
    UpdateFuncs (cache w') = UpdateFuncs (cache w) ∧
    close (cache w') = close (cache w).
Proof.
  intros Hcfg Hrun Hsend.
  destruct (update_each_frame _ _ _ _ Hrun) as (_ & Hcl & Hu & _).
  eexists. split.
  { by apply (StartAndManageUpdates_failure_one_shot o oc w e w1 ch). }
  simpl. by rewrite Hcl, Hu.
Qed.

Lemma StartAndManageUpdates_failure_in_one_shot_mode_witness :
  UpdateInterval (config (cache w_failing_one_shot)) = None ∧
  chan_send "failed to update search cache for k. error: boom"
    (errorChannel w_failing_one_shot)
  = Some (mkChan 1 ["failed to update search cache for k. error: boom"] 0) ∧
  ∃ w', StartAndManageUpdates map_order map_order w_failing_one_shot
        = Returned tt w' ∧
        buf (errorChannel w')
        = ["failed to update search cache for k. error: boom"] ∧
        UpdateFuncs (cache w') = UpdateFuncs (cache w_failing_one_shot).
Proof.
  split; [reflexivity|]. split; [reflexivity|].
  destruct (StartAndManageUpdates_failure_in_one_shot_mode map_order map_order
              w_failing_one_shot
              (world_of (UpdateContent map_order w_failing_one_shot))
              "failed to update search cache for k. error: boom"
              (mkChan 1 ["failed to update search cache for k. error: boom"] 0)
              eq_refl ltac:(vm_compute; reflexivity) eq_refl)
    as (w' & Hrun & _ & Hch & _ & Hu & _).
  exists w'. split; [exact Hrun|]. split; [by rewrite Hch | exact Hu].
Defined.

(** X22. With an interval, when the first cycle of [StartAndManageUpdates]
    fails while a goroutine of an earlier [StartUpdates] waits on [close]
    and the error channel takes the error, the call sends the error, stops
    that goroutine, stores the empty string under every registered key,
    empties the registry, and returns without starting a goroutine. *)
Theorem StartAndManageUpdates_failure_closes_running_engine {Env : Type}
    (o oc : RangeOrder Env) (w w1 : World Env) (e : string) (ch : Chan string)
    (d : Z) :
  UpdateInterval (config (cache w)) = Some d →
  0 < recvq (close (cache w)) →
  UpdateContent o w = Returned (Some e) w1 →
  chan_send e (errorChannel w) = Some ch →
  ∃ w',
    StartAndManageUpdates o oc w = Returned tt w' ∧
    errorChannel w' = ch ∧
    (∀ k, k ∈ dom (UpdateFuncs (cache w)) →
          Get k (cache w') = (VString EmptyString, true)) ∧
    (∀ k, k ∉ dom (UpdateFuncs (cache w)) → Get k (cache w') = Get k (cache w1)) ∧
    UpdateFuncs (cache w') = ∅ ∧
    recvq (close (cache w')) = recvq (close (cache w)) - 1.
Proof.
  intros Hd Hq Hrun Hsend.
  destruct (update_each_frame _ _ _ _ Hrun) as (Hc & Hcl & Hu & He).
  rewrite (StartAndManageUpdates_failure o oc w e w1 Hrun).
  rewrite bind_unfold. unfold send_error. rewrite He, Hsend.
  rewrite bind_unfold.
  match goal with |- context [Close oc ?w2] =>
    destruct (Close_running oc w2 d)
      as (w' & evs & Hclose & _ & _ & Hin & Hout & Hempty & _ & Hq' & _ & Hch & _)
  end.
  { simpl. by rewrite Hc. }
  { simpl. by rewrite Hcl. }
  rewrite Hclose. exists w'. split; [done|]. simpl in *.
  split; [done|]. rewrite Hu in Hin, Hout.
  split; [intros k Hk; apply Get_Some; by apply Hin|].
  split; [intros k Hk; apply Get_eq; by apply Hout|].
  split; [done|]. by rewrite Hq', Hcl.
Qed.

Lemma StartAndManageUpdates_failure_closes_running_engine_witness :
  UpdateInterval (config (cache w_abc_running)) = Some 1000000%Z ∧
  0 < recvq (close (cache w_abc_running)) ∧
  ∃ w', StartAndManageUpdates (last_key "c") map_order w_abc_running
        = Returned tt w' ∧
        Get "a" (cache w') = (VString EmptyString, true) ∧
        UpdateFuncs (cache w') = ∅ ∧
        recvq (close (cache w')) = 0.
Proof.
  split; [reflexivity|]. split; [vm_compute; lia|].
  destruct (StartAndManageUpdates_failure_closes_running_engine
              (last_key "c") map_order w_abc_running
              (world_of (UpdateContent (last_key "c") w_abc_running))
              "failed to update search cache for b. error: boom"
              (mkChan 1 ["failed to update search cache for b. error: boom"] 0)
              1000000%Z eq_refl ltac:(vm_compute; lia)
              ltac:(vm_compute; reflexivity) eq_refl)
    as (w' & Hrun & _ & Hin & _ & Hempty & Hq).
  exists w'. split; [exact Hrun|].
  split; [apply Hin; vm_compute; reflexivity|].
  split; [exact Hempty|]. rewrite Hq. vm_compute; reflexivity.
Defined.

(** ** The topic example *)

Lemma wrap_int_add (a b : Z) :
  Topics.wrap_int (Topics.wrap_int a + b) = Topics.wrap_int (a + b).
Proof.
  unfold Topics.wrap_int. f_equal.
  replace ((a + 2 ^ 63) mod 2 ^ 64 - 2 ^ 63 + b + 2 ^ 63)%Z
    with ((a + 2 ^ 63) mod 2 ^ 64 + b)%Z by lia.
  rewrite Zplus_mod_idemp_l. f_equal. lia.
Qed.

Lemma wrap_int_small (z : Z) :
  (- 2 ^ 63 ≤ z < 2 ^ 63)%Z → Topics.wrap_int z = z.
Proof.
  intros Hz. unfold Topics.wrap_int. rewrite Z.mod_small; lia.
Qed.

Lemma after_calls_spec (n : nat) (g : Topics.Globals) :
  Topics.count g = 0%Z →
  (- 2 ^ 63 ≤ Topics.MOCK_API_CLIENT_ID g < 2 ^ 63)%Z →
  Topics.count (Topics.after_calls n g) = (Z.of_nat n mod 3)%Z ∧
  Topics.MOCK_API_CLIENT_ID (Topics.after_calls n g)
  = Topics.wrap_int (Topics.MOCK_API_CLIENT_ID g + Z.of_nat n).
Proof.
  intros Hcount Hid. induction n as [|n [IHc IHid]].
  - simpl. rewrite Hcount, Z.add_0_r. split; [done|]. by rewrite wrap_int_small.
  - unfold Topics.after_calls in *. rewrite Nat.iter_succ.
    set (g' := Nat.iter n _ g) in *.
    assert ((Z.of_nat (S n) mod 3 = (Z.of_nat n mod 3 + 1) mod 3)%Z) as Hmod.
    { rewrite Nat2Z.inj_succ, Zplus_mod_idemp_l. by f_equal. }
    pose proof (Z.mod_pos_bound (Z.of_nat n) 3 ltac:(lia)) as Hr.
    unfold Topics.UpdateTopic. rewrite IHc, IHid, Hmod.
    assert ((Z.of_nat n mod 3 = 0 ∨ Z.of_nat n mod 3 = 1 ∨ Z.of_nat n mod 3 = 2)%Z)
      as [Hv|[Hv|Hv]] by lia; rewrite Hv; simpl;
      (split; [done|]); rewrite wrap_int_add; f_equal; lia.
Qed.

(** X23. The closure of [UpdateTopic] runs through its three sub-topics in
    turn and numbers its topics consecutively: from package variables with
    [count] at 0, the call that follows [n] earlier calls returns the topic
    "Census" whose ID is the initial [MOCK_API_CLIENT_ID] plus [n + 1]
    (wrapping around as [int] does) with the one sub-topic "age",
    "Migration" or "Sex" according to [n] modulo 3. *)
Theorem UpdateTopic_cycles (n : nat) (g : Topics.Globals) :
  Topics.count g = 0%Z →
  (- 2 ^ 63 ≤ Topics.MOCK_API_CLIENT_ID g < 2 ^ 63)%Z →
  (Topics.UpdateTopic (Topics.after_calls n g)).1
  = Topics.mkTopicItem
      (Topics.wrap_int (Topics.MOCK_API_CLIENT_ID g + Z.of_nat n + 1))
      "Census"
      [if (Z.of_nat n mod 3 =? 0)%Z then Topics.mkSubTopicItem 8341 "age"
       else if (Z.of_nat n mod 3 =? 1)%Z then Topics.mkSubTopicItem 2223 "Migration"
       else Topics.mkSubTopicItem 7845 "Sex"] ∧
  Topics.count (Topics.after_calls (n + 3) g) = Topics.count (Topics.after_calls n g).
Proof.
  intros Hcount Hid.
  destruct (after_calls_spec n g Hcount Hid) as [Hc Hm].
  destruct (after_calls_spec (n + 3) g Hcount Hid) as [Hc3 _].
  split.
  - unfold Topics.UpdateTopic. rewrite Hc, Hm, wrap_int_add.
    pose proof (Z.mod_pos_bound (Z.of_nat n) 3 ltac:(lia)) as Hr.
    assert ((Z.of_nat n mod 3 = 0 ∨ Z.of_nat n mod 3 = 1 ∨ Z.of_nat n mod 3 = 2)%Z)
      as [Hv|[Hv|Hv]] by lia; rewrite Hv; simpl; done.
  - rewrite Hc3, Hc, Nat2Z.inj_add.
    change (Z.of_nat 3) with (1 * 3)%Z. by rewrite Z.mod_add.
Qed.

Lemma UpdateTopic_cycles_witness :
  Topics.count Topics.init = 0%Z ∧
  (- 2 ^ 63 ≤ Topics.MOCK_API_CLIENT_ID Topics.init < 2 ^ 63)%Z ∧
  (Topics.UpdateTopic (Topics.after_calls 4 Topics.init)).1
  = Topics.mkTopicItem 6 "Census" [Topics.mkSubTopicItem 2223 "Migration"].
Proof.
  split; [reflexivity|]. split; [simpl; lia|].
  rewrite (proj1 (UpdateTopic_cycles 4 Topics.init eq_refl ltac:(simpl; lia))).
  reflexivity.
Defined.

(** ** What [Close] stores *)

Lemma Close_returned_stores {Env : Type}
    (o : RangeOrder Env) (w w' : World Env) (d : Z) :
  UpdateInterval (config (cache w)) = Some d →
  Close o w = Returned tt w' →
  (∀ k, k ∈ dom (UpdateFuncs (cache w)) →
        data (cache w') !! k = Some (VString EmptyString)) ∧
  (∀ k, k ∉ dom (UpdateFuncs (cache w)) →
        data (cache w') !! k = data (cache w) !! k).
Proof.
  intros Hd Hrun. unfold Close in Hrun. rewrite Hd, bind_unfold in Hrun.
  unfold send_close in Hrun.
  destruct (chan_send () (close (cache w))) as [ch|]; [|done].
  rewrite bind_unfold in Hrun. unfold reset_UpdateFuncs in Hrun.
  match type of Hrun with context [reset_each ?l ?w0] =>
    destruct (reset_each_spec l w0)
      as (w1 & evs & Hreset & _ & _ & Hin & Hout & _);
    rewrite Hreset in Hrun
  end.
  injection Hrun as <-. simpl in *. split.
  - intros k Hk. apply Hin. by apply range_key_elem_of.
  - intros k Hk. apply Hout. by rewrite range_key_elem_of.
Qed.

(** X25. Whatever [Close] does, a key that is not in the registry reads
    back as before.  Whenever [Close] returns on an engine with an interval,
    it has stored the string of length zero under every key of the
    registry, whatever was stored there, also when nothing was: such a key
    reads back as found.  And with a goroutine waiting on [close] it does
    return. *)
Theorem Close_stores_empty_string {Env : Type}
    (o : RangeOrder Env) (w : World Env) :
  (∀ k, k ∉ dom (UpdateFuncs (cache w)) →
        Get k (cache (world_of (Close o w))) = Get k (cache w)) ∧
  (∀ d w', UpdateInterval (config (cache w)) = Some d →
           Close o w = Returned tt w' →
           ∀ k, k ∈ dom (UpdateFuncs (cache w)) →
                data (cache w') !! k = Some (VString EmptyString) ∧
                Get k (cache w') = (VString EmptyString, true)) ∧
  (∀ d, UpdateInterval (config (cache w)) = Some d →
        0 < recvq (close (cache w)) →
        ∃ w', Close o w = Returned tt w').
Proof.
  split; [|split].
  - intros k Hk. apply Get_eq.
    destruct (Close o w) as [[] w'|w'] eqn:Hrun; simpl.
    + destruct (UpdateInterval (config (cache w))) as [d|] eqn:Hd.
      * by apply (Close_returned_stores o w w' d Hd Hrun).
      * rewrite (Close_no_interval o w Hd) in Hrun. by injection Hrun as <-.
    + by rewrite (Close_blocked_same o w w' Hrun).
  - intros d w' Hd Hrun k Hk.
    destruct (Close_returned_stores o w w' d Hd Hrun) as [Hin _].
    split; [by apply Hin | apply Get_Some; by apply Hin].
  - intros d Hd Hq.
    destruct (Close_running o w d Hd Hq) as (w' & evs & Hrun & _).
    by exists w'.
Qed.

Lemma Close_stores_empty_string_witness :
  UpdateInterval (config (cache w_running)) = Some 1000000%Z ∧
  0 < recvq (close (cache w_running)) ∧
  Get "int" (cache w_running) = (VInt 1, true) ∧
  Get "new" (cache w_running) = (VNil, false) ∧
  ∃ w', Close (first_key "new") w_running = Returned tt w' ∧
        Get "int" (cache w') = (VString EmptyString, true) ∧
        Get "new" (cache w') = (VString EmptyString, true) ∧
        Get "other" (cache w') = (VBool true, true).
Proof.
  split; [reflexivity|]. split; [vm_compute; lia|].
  split; [vm_compute; reflexivity|]. split; [vm_compute; reflexivity|].
  destruct (Close_stores_empty_string (first_key "new") w_running)
    as (Hframe & Hstores & Hreturns).
  destruct (Hreturns 1000000%Z eq_refl ltac:(vm_compute; lia)) as (w' & Hrun).
  exists w'. split; [exact Hrun|].
  split; [apply (Hstores 1000000%Z w' eq_refl Hrun); vm_compute; reflexivity|].
  split; [apply (Hstores 1000000%Z w' eq_refl Hrun); vm_compute; reflexivity|].
  pose proof (Hframe "other" ltac:(vm_compute; intros H; inversion H)) as Hother.
  rewrite Hrun in Hother. simpl in Hother. rewrite Hother.
  vm_compute; reflexivity.
Defined.
